(** * simplemerkle: the flat-array Merkle tree of [util/simplemerkle/merkle.go]

    A shallow embedding of the Go package and the proofs of its
    specification.  Go values are embedded as follows.

    - [int] is a 64-bit two's complement integer: a [Z] in
      [[-2^63, 2^63)], every arithmetic result passed through [wrap64].
    - A slice is a [list]; an index expression [s[i]] that is out of range
      is a run-time panic, so reads and writes are the fallible [load] and
      [store] in the monad [go].
    - [*hash.Hash] is a pointer.  The tree stores [&hashes[i]], an address
      inside the caller's slice, and the address of a fresh local variable
      for every computed node.  The type [ptr] keeps the two apart and the
      caller's backing array is an explicit memory argument.
    - [hash.Hash], [hash.HashSize], [hash.UndefHash], [Hash.Bytes] and the
      hash function bound to the package variable [hasher] come from
      another package and are parameters of the development.
    - [math.Log2(float64(n))] converted to an integer is a parameter too
      ([log2_trunc]); where a result depends on it, the statement says at
      which arguments it is taken to be the exact integer logarithm. *)

From Stdlib Require Import ZArith Lia Bool.
From Stdlib.Strings Require Import Byte.
From stdpp Require Import base list.
From Equations Require Import Equations.

Local Open Scope Z_scope.

(** ** Go run-time outcomes *)

(** The outcome of running a piece of Go code: a value, a run-time panic,
    or [Fuel] when the fuel given to a loop of the embedding did not
    suffice (never the case for the fuel [NewTreeFromHashes] passes, see
    [build_loop_run]). *)
Inductive go (A : Type) : Type :=
| Val (a : A)
| Panic
| Fuel.
Arguments Val {A} a.
Arguments Panic {A}.
Arguments Fuel {A}.

Definition bind {A B : Type} (m : go A) (f : A -> go B) : go B :=
  match m with
  | Val a => f a
  | Panic => Panic
  | Fuel => Fuel
  end.

Notation "x <- m ;; k" := (bind m (fun x => k))
  (at level 100, m at next level, right associativity).

(** ** 64-bit integers *)

Definition min_int : Z := - 2 ^ 63.
Definition max_int : Z := 2 ^ 63 - 1.

(** Two's complement wrap-around of [int]. *)
Definition wrap64 (x : Z) : Z := (x + 2 ^ 63) mod 2 ^ 64 - 2 ^ 63.

(** Wrap-around of [uint]. *)
Definition wrapU64 (x : Z) : Z := x mod 2 ^ 64.

Definition is_int (x : Z) : Prop := min_int <= x <= max_int.

(** [1 << e] on [int] with an unsigned shift count [e]: bits shifted past
    bit 63 are lost. *)
Definition shl_int (x e : Z) : Z := wrap64 (Z.shiftl x e).

(** ** Slices *)

(** [s[i]]. *)
Definition load {A : Type} (s : list A) (i : Z) : go A :=
  if (0 <=? i) && (i <? Z.of_nat (length s))
  then match s !! Z.to_nat i with
       | Some a => Val a
       | None => Panic
       end
  else Panic.

(** [s[i] = a]. *)
Definition store {A : Type} (s : list A) (i : Z) (a : A) : go (list A) :=
  if (0 <=? i) && (i <? Z.of_nat (length s))
  then Val (<[Z.to_nat i := a]> s)
  else Panic.

(** [make([]T, n)] with [zero] the zero value of [T]. *)
Definition make {A : Type} (zero : A) (n : Z) : go (list A) :=
  if n <? 0 then Panic else Val (replicate (Z.to_nat n) zero).

(** The built-in [copy(dst, src)]: the first [min(len(dst), len(src))]
    elements of [dst] are overwritten; the result is the new content of
    [dst]. *)
Definition copy {A : Type} (dst src : list A) : list A :=
  take (length dst) src ++ drop (length src) dst.

(** ** Powers of two *)

Definition is_pow2 (r : Z) : Prop := exists k, 0 <= k /\ r = 2 ^ k.

(** [r] is the smallest power of two that is at least [n]. *)
Definition smallest_pow2_geq (n r : Z) : Prop :=
  is_pow2 r /\ n <= r /\ forall k, 0 <= k -> n <= 2 ^ k -> r <= 2 ^ k.

(** ** A small instance for running the code *)

(** One-byte digests and a toy hash function, with the exact integer
    logarithm in place of the float64 one. *)
Module Toy.

Definition digest : Type := byte.

Definition digest_size : nat := 1%nat.

Definition bytes_of (h : digest) : list byte := [h].

Definition undef : digest := x00.

Definition toy_hash (bs : list byte) : digest :=
  match
    Byte.of_N (fold_left (fun acc b => (3 * acc + Byte.to_N b + 1) mod 256)%N
                         bs 7%N)
  with
  | Some b => b
  | None => x00
  end.

Definition exact_log2 (n : Z) : Z := Z.log2 n.

End Toy.

(** ** The package *)

Section simplemerkle.

(** [hash.Hash], a fixed-size array of [HashSize] bytes. *)
Variable Hash : Type.
Variable HashSize : nat.
Variable Bytes : Hash -> list byte.
Variable UndefHash : Hash.

(** [Hash.Bytes] returns the [HashSize] bytes of the array. *)
Hypothesis Bytes_length : forall h, length (Bytes h) = HashSize.

(** A [hash.Hash] is its bytes: two digests with the same bytes are the
    same digest. *)
Hypothesis Bytes_inj : forall h h', Bytes h = Bytes h' -> h = h'.

(** The package variable [hasher], set to [hash.CalcHash] by [init]. *)
Variable hasher : list byte -> Hash.

(** [math.Log2(float64(n))] converted to [uint] (in [nextPowerOfTwo]) or
    to [int] (in [Depth]).  For [n >= 1] the logarithm is finite and not
    negative, and the two conversions agree. *)
Variable log2_trunc : Z -> Z.

(** Assumption on the floating-point library: for arguments below
    [2 ^ 48] the integer part of the computed logarithm is the integer
    logarithm.  (There the conversion to float64 is exact, and the
    distance of the logarithm of a number that is not a power of two from
    the next integer is more than half a unit in the last place.)  The
    results on trees are stated for slices whose node array stays below
    this bound; [nextPowerOfTwo_correct] does not use it. *)
Hypothesis log2_trunc_exact :
  forall n, 1 <= n < 2 ^ 48 -> log2_trunc n = Z.log2 n.

(** [nextPowerOfTwo], lines 22-32. *)
Definition nextPowerOfTwo (n : Z) : Z :=
  if Z.land n (wrap64 (n - 1)) =? 0 then n
  else
    let exponent := wrapU64 (log2_trunc n + 1) in
    shl_int 1 exponent.

(** [HashMerkleBranches], lines 37-46, on the two digests its pointer
    arguments point to.  [h] starts as the zero array of [HashSize * 2]
    bytes; each [copy] overwrites one half of it. *)
Definition HashMerkleBranches (left right : Hash) : Hash :=
  let h := replicate (HashSize * 2)%nat x00 in
  let h := copy (take HashSize h) (Bytes left) ++ drop HashSize h in
  let h := take HashSize h ++ copy (drop HashSize h) (Bytes right) in
  hasher h.

(** A [*hash.Hash] that is not nil: [Elem i] is [&hashes[i]], the address
    of element [i] of the backing array of the slice given to
    [NewTreeFromHashes]; [Fresh h] is the address of a [newHash] variable
    holding [h], which nothing else refers to. *)
Inductive ptr : Type :=
| Elem (i : nat)
| Fresh (h : Hash).

(** [type Tree struct { merkles []*hash.Hash }]; [None] is the nil
    pointer. *)
Record Tree : Type := { merkles : list (option ptr) }.

(** [*p] in a memory whose only mutable part is the backing array [mem]
    of the input slice.  Go has no dangling pointers; the [Panic] branch
    is reached only when [mem] is shorter than the slice the pointer was
    taken from. *)
Definition deref (mem : list Hash) (p : ptr) : go Hash :=
  match p with
  | Elem i => match mem !! i with
              | Some h => Val h
              | None => Panic
              end
  | Fresh h => Val h
  end.

(** [for i := range ... { body }] over the indices [idx]. *)
Fixpoint for_range {S : Type} (idx : list nat) (body : nat -> S -> go S) (s : S)
  : go S :=
  match idx with
  | [] => Val s
  | i :: rest => s' <- body i s ;; for_range rest body s'
  end.

(** Lines 67-69. *)
Definition place_leaves (hashes : list Hash) (merkles : list (option ptr))
  : go (list (option ptr)) :=
  for_range (seq 0 (length hashes))
            (fun i m => store m (Z.of_nat i) (Some (Elem i))) merkles.

(** The [switch] of lines 75-91: one pass of the loop body for the pair
    of slots [i], [i + 1] and the parent slot [offset]. *)
Definition build_pair (mem : list Hash) (merkles : list (option ptr))
    (i offset : Z) : go (list (option ptr)) :=
  left <- load merkles i ;;
  match left with
  | None => store merkles offset None
  | Some l =>
      right <- load merkles (wrap64 (i + 1)) ;;
      match right with
      | None =>
          hl <- deref mem l ;;
          store merkles offset (Some (Fresh (HashMerkleBranches hl hl)))
      | Some r =>
          hl <- deref mem l ;;
          hr <- deref mem r ;;
          store merkles offset (Some (Fresh (HashMerkleBranches hl hr)))
      end
  end.

(** The loop of lines 74-93, entered with the current [i] and [offset]. *)
Fixpoint build_loop (fuel : nat) (mem : list Hash) (arraySize i offset : Z)
    (merkles : list (option ptr)) : go (list (option ptr)) :=
  if i <? wrap64 (arraySize - 1) then
    match fuel with
    | O => Fuel
    | S fuel' =>
        merkles' <- build_pair mem merkles i offset ;;
        build_loop fuel' mem arraySize (wrap64 (i + 2)) (wrap64 (offset + 1))
                   merkles'
    end
  else Val merkles.

(** [NewTreeFromHashes], lines 57-96.  The result [None] is the nil
    tree.  [len(hashes)] is the length of the list; [make] panics on a
    negative size (a size beyond the memory of the machine is not
    modelled), and the loop gets as much fuel as the array has slots. *)
Definition NewTreeFromHashes (hashes : list Hash) : go (option Tree) :=
  let n := Z.of_nat (length hashes) in
  if n =? 0 then Val None
  else
    let nextPoT := nextPowerOfTwo n in
    let arraySize := wrap64 (wrap64 (nextPoT * 2) - 1) in
    merkles <- make None arraySize ;;
    merkles <- place_leaves hashes merkles ;;
    merkles <- build_loop (Z.to_nat arraySize) hashes arraySize 0 nextPoT
                          merkles ;;
    Val (Some {| merkles := merkles |}).

(** The slice [hashes] that [NewTreeFromSlices] fills, lines 49-52. *)
Definition hash_slices (slices : list (list byte)) : list Hash :=
  map hasher slices.

(** [NewTreeFromSlices], lines 48-55.  The pointers [Elem i] of its tree
    point into [hash_slices slices], which the caller never sees. *)
Definition NewTreeFromSlices (slices : list (list byte)) : go (option Tree) :=
  NewTreeFromHashes (hash_slices slices).

(** [Root], lines 98-108, in the memory [mem]. *)
Definition Root (mem : list Hash) (tree : option Tree) : go Hash :=
  match tree with
  | None => Val UndefHash
  | Some t =>
      h <- load (merkles t) (wrap64 (Z.of_nat (length (merkles t)) - 1)) ;;
      match h with
      | Some p => deref mem p
      | None => Val UndefHash
      end
  end.

(** [Depth], lines 110-116. *)
Definition Depth (tree : option Tree) : Z :=
  match tree with
  | None => 0
  | Some t => log2_trunc (Z.of_nat (length (merkles t)))
  end.

(** ** Specification-side definitions *)

(** The digest a slot holds in memory [mem], [None] for a nil slot. *)
Definition slot_val (mem : list Hash) (s : option ptr) : option Hash :=
  match s with
  | None => None
  | Some (Elem i) => mem !! i
  | Some (Fresh h) => Some h
  end.

(** The node array of a tree as optional digests. *)
Definition nodes (mem : list Hash) (t : Tree) : list (option Hash) :=
  slot_val mem <$> merkles t.

(** The three rules for the parent of a pair of slots. *)
Definition parent_rule (l r : option Hash) : option Hash :=
  match l, r with
  | None, _ => None
  | Some a, None => Some (HashMerkleBranches a a)
  | Some a, Some b => Some (HashMerkleBranches a b)
  end.

(** The pointer the loop stores for the pair of slots [l], [r]: nil, or
    the address of a fresh digest. *)
Definition parent_slot (mem : list Hash) (l r : option ptr) : option ptr :=
  option_map Fresh (parent_rule (slot_val mem l) (slot_val mem r)).

(** The state of the node array [M] once the loop has handled the first
    [t] pairs of a tree with [L] leaf slots over the digests [hashes]. *)
Record built (hashes : list Hash) (L t : nat) (M : list (option ptr)) : Prop :=
  { built_length : length M = (2 * L - 1)%nat;
    built_leaf : forall i, (i < length hashes)%nat ->
                           M !! i = Some (Some (Elem i));
    built_pad : forall i, (length hashes <= i < L)%nat -> M !! i = Some None;
    built_inner : forall i p, (L <= i)%nat -> M !! i = Some (Some p) ->
                              exists h, p = Fresh h;
    built_pair : forall s, (s < t)%nat ->
                 exists l r, M !! (2 * s)%nat = Some l /\
                             M !! (2 * s + 1)%nat = Some r /\
                             M !! (L + s)%nat = Some (parent_slot hashes l r) }.

(** The number of levels above the leaves: the least [k] with
    [n <= 2 ^ k]. *)
Definition levels (n : nat) : nat := Z.to_nat (Z.log2_up (Z.of_nat n)).

(** The number [L] of leaf slots of the tree over [n] digests. *)
Definition leaf_slots (n : nat) : nat := (2 ^ levels n)%nat.

(** One level up: hash neighbours pairwise, a last odd digest with
    itself. *)
Fixpoint pair_up (l : list Hash) : list Hash :=
  match l with
  | [] => []
  | [a] => [HashMerkleBranches a a]
  | a :: b :: rest => HashMerkleBranches a b :: pair_up rest
  end.

(** Level [j] of the tree over the digests [l]: [pair_up] applied [j]
    times. *)
Definition level (j : nat) (l : list Hash) : list Hash := Nat.iter j pair_up l.

(** The index of the first slot of level [j] in the flat array of a tree
    with [2 ^ k] leaf slots. *)
Definition level_offset (k j : nat) : nat := (2 * 2 ^ k - 2 * 2 ^ (k - j))%nat.

(** The duplicate-odd-leaf Merkle root: the only digest of a one-element
    level, else the root of the level above. *)
Equations merkle_root (l : list Hash) : option Hash by wf (length l) lt :=
  merkle_root [] := None;
  merkle_root [d] := Some d;
  merkle_root (a :: b :: rest) := merkle_root (pair_up (a :: b :: rest)).
Next Obligation.
  assert (Hle : forall m (r : list Hash),
             (length r <= m -> length (pair_up r) <= length r)%nat).
  { intros m. induction m as [|m IH]; intros [|x [|y r]]; simpl; try lia.
    intros Hm. specialize (IH r). lia. }
  specialize (Hle (length rest) rest). lia.
Qed.


(** ** 64-bit arithmetic *)

Lemma wrap64_small x : - 2 ^ 63 <= x < 2 ^ 63 -> wrap64 x = x.
Proof. intros Hx. unfold wrap64. rewrite Z.mod_small; lia. Qed.

Lemma wrap64_range x : - 2 ^ 63 <= wrap64 x < 2 ^ 63.
Proof.
  unfold wrap64.
  pose proof (Z.mod_pos_bound (x + 2 ^ 63) (2 ^ 64) ltac:(lia)). lia.
Qed.

Lemma wrapU64_small x : 0 <= x < 2 ^ 64 -> wrapU64 x = x.
Proof. intros Hx. unfold wrapU64. apply Z.mod_small. lia. Qed.

Lemma pow2_pos k : 0 <= k -> 0 < 2 ^ k.
Proof. intros Hk. apply Z.pow_pos_nonneg; lia. Qed.

(** A number that is not a power of two keeps its top bit when one is
    subtracted. *)
Lemma log2_pred_not_pow2 n :
  1 <= n -> n <> 2 ^ Z.log2 n -> Z.log2 (n - 1) = Z.log2 n.
Proof.
  intros Hn Hne.
  destruct (Z.log2_spec n ltac:(lia)) as [Hlo Hhi].
  apply Z.log2_unique; [apply Z.log2_nonneg | ].
  replace (Z.succ (Z.log2 n)) with (Z.log2 n + 1) in * by lia. lia.
Qed.

(** The test of line 24 is the power-of-two test. *)
Lemma land_pred_pow2 n : 1 <= n -> Z.land n (n - 1) = 0 <-> is_pow2 n.
Proof.
  intros Hn. split.
  - intros Hland. exists (Z.log2 n). split; [apply Z.log2_nonneg | ].
    destruct (Z.eq_dec n (2 ^ Z.log2 n)) as [Heq | Hne]; [exact Heq | exfalso].
    pose proof (log2_pred_not_pow2 n Hn Hne) as Hlog.
    assert (Hpos : 0 < n - 1).
    { pose proof (pow2_pos (Z.log2 n) (Z.log2_nonneg n)).
      destruct (Z.log2_spec n ltac:(lia)). lia. }
    assert (Hbit : Z.testbit (Z.land n (n - 1)) (Z.log2 n) = true).
    { rewrite Z.land_spec, (Z.bit_log2 n) by lia.
      rewrite <- Hlog. rewrite Z.bit_log2 by lia. reflexivity. }
    rewrite Hland, Z.bits_0 in Hbit. discriminate.
  - intros (k & Hk & ->).
    replace (2 ^ k - 1) with (Z.ones k) by (rewrite Z.ones_equiv; lia).
    rewrite Z.land_ones by lia. apply Z_mod_same_full.
Qed.

Lemma log2_up_not_pow2 n :
  1 <= n -> ~ is_pow2 n -> Z.log2_up n = Z.log2 n + 1.
Proof.
  intros Hn Hnp.
  assert (Hne : n <> 2 ^ Z.log2 n).
  { intros Heq. apply Hnp. exists (Z.log2 n). split; [apply Z.log2_nonneg | easy]. }
  assert (n <> 1).
  { intros ->. apply Hne. reflexivity. }
  rewrite Z.log2_up_eqn by lia.
  replace (Z.pred n) with (n - 1) by lia.
  rewrite log2_pred_not_pow2 by assumption. lia.
Qed.

Lemma smallest_pow2_geq_log2_up n :
  1 <= n -> smallest_pow2_geq n (2 ^ Z.log2_up n).
Proof.
  intros Hn. split; [ | split].
  - exists (Z.log2_up n). split; [apply Z.log2_up_nonneg | reflexivity].
  - destruct (Z.eq_dec n 1) as [-> | Hne]; [reflexivity | ].
    apply (Z.log2_up_spec n). lia.
  - intros k Hk Hle. apply Z.pow_le_mono_r; [lia | ].
    apply Z.log2_up_le_pow2; lia.
Qed.

Lemma smallest_pow2_geq_unique n r r' :
  smallest_pow2_geq n r -> smallest_pow2_geq n r' -> r = r'.
Proof.
  intros ((k & Hk & ->) & Hge & Hmin) ((k' & Hk' & ->) & Hge' & Hmin').
  specialize (Hmin k' Hk' Hge'). specialize (Hmin' k Hk Hge). lia.
Qed.

(** [nextPowerOfTwo] in closed form, on the range where [1 << exponent]
    does not overflow. *)
Lemma nextPowerOfTwo_log2_up n :
  1 <= n <= 2 ^ 62 ->
  is_pow2 n \/ log2_trunc n = Z.log2 n ->
  nextPowerOfTwo n = 2 ^ Z.log2_up n.
Proof.
  intros Hn Hlog. unfold nextPowerOfTwo.
  rewrite (wrap64_small (n - 1)) by lia.
  destruct (Z.eqb_spec (Z.land n (n - 1)) 0) as [Hland | Hland].
  - apply land_pred_pow2 in Hland; [ | lia].
    destruct Hland as (k & Hk & ->). rewrite Z.log2_up_pow2; easy.
  - assert (Hnp : ~ is_pow2 n).
    { intros Hp. apply Hland. apply land_pred_pow2; [lia | exact Hp]. }
    destruct Hlog as [Hp | Hlog]; [contradiction | ].
    rewrite Hlog, log2_up_not_pow2 by (assumption || lia).
    assert (Hlt : Z.log2 n < 62).
    { apply Z.log2_lt_pow2; [lia | ].
      assert (n <> 2 ^ 62) by (intros ->; apply Hnp; exists 62; lia). lia. }
    pose proof (Z.log2_nonneg n) as Hnn.
    rewrite wrapU64_small by lia.
    unfold shl_int. rewrite Z.shiftl_1_l.
    apply wrap64_small.
    pose proof (pow2_pos (Z.log2 n + 1) ltac:(lia)).
    assert (2 ^ (Z.log2 n + 1) <= 2 ^ 62) by (apply Z.pow_le_mono_r; lia).
    lia.
Qed.

(** ** Slices and pointers *)

Lemma load_at {A : Type} (s : list A) (i : nat) (a : A) :
  s !! i = Some a -> load s (Z.of_nat i) = Val a.
Proof.
  intros Hi. pose proof (lookup_lt_Some _ _ _ Hi) as Hlt. unfold load.
  destruct (Z.leb_spec 0 (Z.of_nat i)); [ | lia].
  destruct (Z.ltb_spec (Z.of_nat i) (Z.of_nat (length s))); [ | lia].
  simpl. rewrite Nat2Z.id, Hi. reflexivity.
Qed.

Lemma store_at {A : Type} (s : list A) (i : nat) (a : A) :
  (i < length s)%nat -> store s (Z.of_nat i) a = Val (<[i := a]> s).
Proof.
  intros Hlt. unfold store.
  destruct (Z.leb_spec 0 (Z.of_nat i)); [ | lia].
  destruct (Z.ltb_spec (Z.of_nat i) (Z.of_nat (length s))); [ | lia].
  simpl. rewrite Nat2Z.id. reflexivity.
Qed.

Lemma copy_same_length {A : Type} (dst src : list A) :
  length dst = length src -> copy dst src = src.
Proof.
  intros Hlen. unfold copy.
  rewrite Hlen, firstn_all, (drop_ge dst) by lia. apply app_nil_r.
Qed.

Lemma deref_slot_val mem p h :
  slot_val mem (Some p) = Some h -> deref mem p = Val h.
Proof.
  destruct p as [i | h']; simpl; intros Hv.
  - rewrite Hv. reflexivity.
  - congruence.
Qed.

Lemma HashMerkleBranches_eq left right :
  HashMerkleBranches left right = hasher (Bytes left ++ Bytes right).
Proof.
  unfold HashMerkleBranches. f_equal.
  rewrite (copy_same_length _ (Bytes left))
    by (rewrite length_take, length_replicate, Bytes_length; lia).
  rewrite take_app_length' by (symmetry; apply Bytes_length).
  rewrite drop_app_length' by (symmetry; apply Bytes_length).
  rewrite copy_same_length; [reflexivity | ].
  rewrite length_drop, length_replicate, Bytes_length. lia.
Qed.

(** C6.  [HashMerkleBranches left right] is the hash of the buffer of
    twice the digest length that holds the bytes of [left] followed by
    the bytes of [right]. *)
Theorem HashMerkleBranches_concat left right :
  HashMerkleBranches left right = hasher (Bytes left ++ Bytes right) /\
  length (Bytes left ++ Bytes right) = (HashSize * 2)%nat.
Proof.
  split.
  - apply HashMerkleBranches_eq.
  - rewrite length_app, !Bytes_length. lia.
Qed.

(** ** The construction loop *)

Lemma built_valid hashes L t M i p :
  built hashes L t M -> M !! i = Some (Some p) ->
  exists h, slot_val hashes (Some p) = Some h.
Proof.
  intros HB Hi.
  destruct (Nat.lt_ge_cases i (length hashes)) as [Hlt | Hge].
  - rewrite (built_leaf _ _ _ _ HB i Hlt) in Hi.
    injection Hi as <-. simpl. apply lookup_lt_is_Some. exact Hlt.
  - destruct (Nat.lt_ge_cases i L) as [HiL | HiL].
    + rewrite (built_pad _ _ _ _ HB i) in Hi by lia. discriminate.
    + destruct (built_inner _ _ _ _ HB i p HiL Hi) as [h ->]. exists h. reflexivity.
Qed.

Lemma parent_slot_fresh mem l r p :
  parent_slot mem l r = Some p -> exists h, p = Fresh h.
Proof.
  unfold parent_slot.
  destruct (parent_rule (slot_val mem l) (slot_val mem r)) as [h | ]; simpl;
    [ | discriminate].
  intros [= <-]. exists h. reflexivity.
Qed.

(** One pass of the loop body keeps the invariant. *)
Lemma built_step hashes L t M l r :
  built hashes L t M -> (t + 1 < L)%nat ->
  M !! (2 * t)%nat = Some l -> M !! (2 * t + 1)%nat = Some r ->
  built hashes L (S t) (<[(L + t)%nat := parent_slot hashes l r]> M).
Proof.
  intros HB Ht Hl Hr.
  pose proof (built_length _ _ _ _ HB) as Hlen.
  constructor.
  - rewrite length_insert. exact Hlen.
  - intros i Hi. pose proof (lookup_lt_Some _ _ _ (built_leaf _ _ _ _ HB i Hi)).
    destruct (decide (i = L + t)%nat) as [-> | Hne].
    + destruct (Nat.lt_ge_cases (L + t) L) as [ | Hge]; [lia | ].
      pose proof (built_leaf _ _ _ _ HB _ Hi) as Hleaf.
      destruct (built_inner _ _ _ _ HB _ _ Hge Hleaf) as [h Hh]. discriminate.
    + rewrite list_lookup_insert_ne by lia. apply (built_leaf _ _ _ _ HB i Hi).
  - intros i Hi. rewrite list_lookup_insert_ne by lia.
    apply (built_pad _ _ _ _ HB i Hi).
  - intros i p Hi. destruct (decide (i = L + t)%nat) as [-> | Hne].
    + rewrite list_lookup_insert_eq by lia. intros [= Hp].
      apply (parent_slot_fresh _ _ _ _ Hp).
    + rewrite list_lookup_insert_ne by lia. apply (built_inner _ _ _ _ HB i p Hi).
  - intros s Hs. destruct (decide (s = t)) as [-> | Hne].
    + exists l, r. rewrite !list_lookup_insert_ne by lia.
      rewrite list_lookup_insert_eq by lia. auto.
    + destruct (built_pair _ _ _ _ HB s ltac:(lia)) as (l' & r' & Hl' & Hr' & Hp').
      exists l', r'. rewrite !list_lookup_insert_ne by lia. auto.
Qed.

(** The loop runs to completion on the fuel it is given and ends in the
    state where every pair is handled. *)
Lemma build_loop_run hashes L :
  (1 <= L)%nat -> Z.of_nat L <= 2 ^ 62 ->
  forall d t fuel M,
    (t + d = L - 1)%nat -> (d <= fuel)%nat -> built hashes L t M ->
    exists M',
      build_loop fuel hashes (Z.of_nat (2 * L - 1)) (Z.of_nat (2 * t))
                 (Z.of_nat (L + t)) M = Val M' /\
      built hashes L (L - 1) M'.
Proof.
  intros HL1 HL62 d. induction d as [ | d IH]; intros t fuel M Ht Hfuel HB.
  - exists M. replace (L - 1)%nat with t by lia. split; [ | exact HB].
    assert (Hcond : (Z.of_nat (2 * t) <? wrap64 (Z.of_nat (2 * L - 1) - 1)) = false).
    { rewrite wrap64_small by lia. apply Z.ltb_ge. lia. }
    destruct fuel; cbn [build_loop]; rewrite Hcond; reflexivity.
  - destruct fuel as [ | fuel]; [lia | ].
    pose proof (built_length _ _ _ _ HB) as Hlen.
    destruct (lookup_lt_is_Some_2 M (2 * t)%nat ltac:(lia)) as [l Hl].
    destruct (lookup_lt_is_Some_2 M (2 * t + 1)%nat ltac:(lia)) as [r Hr].
    assert (Hbody :
      build_pair hashes M (Z.of_nat (2 * t)) (Z.of_nat (L + t))
      = Val (<[(L + t)%nat := parent_slot hashes l r]> M)).
    { unfold build_pair. rewrite (load_at M _ l Hl). cbn [bind].
      destruct l as [lp | ].
      - destruct (built_valid _ _ _ _ _ _ HB Hl) as [hl Hhl].
        rewrite wrap64_small by lia.
        replace (Z.of_nat (2 * t) + 1) with (Z.of_nat (2 * t + 1)) by lia.
        rewrite (load_at M _ r Hr). cbn [bind].
        rewrite (deref_slot_val _ _ _ Hhl). cbn [bind].
        destruct r as [rp | ].
        + destruct (built_valid _ _ _ _ _ _ HB Hr) as [hr Hhr].
          rewrite (deref_slot_val _ _ _ Hhr). cbn [bind].
          rewrite store_at by lia. unfold parent_slot. rewrite Hhl, Hhr.
          reflexivity.
        + rewrite store_at by lia. unfold parent_slot. rewrite Hhl.
          reflexivity.
      - rewrite store_at by lia. reflexivity. }
    assert (Hcond : (Z.of_nat (2 * t) <? wrap64 (Z.of_nat (2 * L - 1) - 1)) = true).
    { rewrite wrap64_small by lia. apply Z.ltb_lt. lia. }
    cbn [build_loop]. rewrite Hcond, Hbody. cbn [bind].
    rewrite !wrap64_small by lia.
    replace (Z.of_nat (2 * t) + 2) with (Z.of_nat (2 * S t)) by lia.
    replace (Z.of_nat (L + t) + 1) with (Z.of_nat (L + S t)) by lia.
    apply IH; [lia | lia | ].
    apply built_step; [exact HB | lia | exact Hl | exact Hr].
Qed.

Lemma for_range_store a k (M : list (option ptr)) :
  (a + k <= length M)%nat ->
  exists M',
    for_range (seq a k) (fun i m => store m (Z.of_nat i) (Some (Elem i))) M
    = Val M' /\
    length M' = length M /\
    (forall i, (a <= i < a + k)%nat -> M' !! i = Some (Some (Elem i))) /\
    (forall i, ~ (a <= i < a + k)%nat -> M' !! i = M !! i).
Proof.
  revert a M. induction k as [ | k IH]; intros a M Hlen.
  - exists M. split; [reflexivity | split; [reflexivity | split]].
    + intros i Hi. lia.
    + reflexivity.
  - cbn [seq for_range]. rewrite store_at by lia. cbn [bind].
    destruct (IH (S a) (<[a := Some (Elem a)]> M)) as (M' & Hrun & HlenM & Hin & Hout).
    { rewrite length_insert. lia. }
    exists M'. rewrite length_insert in HlenM.
    split; [exact Hrun | split; [exact HlenM | split]].
    + intros i Hi. destruct (decide (i = a)) as [-> | Hne].
      * rewrite Hout by lia. apply list_lookup_insert_eq. lia.
      * apply Hin. lia.
    + intros i Hi. rewrite Hout by lia. apply list_lookup_insert_ne. lia.
Qed.

(** The array before the loop: the leaves point into [hashes], every
    other slot is nil. *)
Lemma place_leaves_built hashes L :
  (length hashes <= L)%nat -> (1 <= L)%nat ->
  exists M,
    place_leaves hashes (replicate (2 * L - 1) None) = Val M /\
    built hashes L 0 M.
Proof.
  intros Hn HL. unfold place_leaves.
  destruct (for_range_store 0 (length hashes) (replicate (2 * L - 1) None))
    as (M & Hrun & Hlen & Hin & Hout).
  { rewrite length_replicate. lia. }
  rewrite length_replicate in Hlen.
  exists M. split; [exact Hrun | ]. constructor.
  - exact Hlen.
  - intros i Hi. apply Hin. lia.
  - intros i Hi. rewrite Hout by lia. apply lookup_replicate_2. lia.
  - intros i p Hi. rewrite Hout by lia. intros Hp.
    apply lookup_replicate in Hp. destruct Hp as [Hp _]. discriminate.
  - intros s Hs. lia.
Qed.

Lemma levels_pow n : Z.of_nat (2 ^ levels n) = 2 ^ Z.log2_up (Z.of_nat n).
Proof.
  unfold levels. rewrite Nat2Z.inj_pow, Z2Nat.id by apply Z.log2_up_nonneg.
  reflexivity.
Qed.

(** [levels n] is the least [k] with [n <= 2 ^ k]. *)
Lemma levels_spec n :
  (1 <= n)%nat ->
  (n <= 2 ^ levels n)%nat /\ forall j, (n <= 2 ^ j)%nat -> (levels n <= j)%nat.
Proof.
  intros Hn.
  destruct (smallest_pow2_geq_log2_up (Z.of_nat n) ltac:(lia)) as (_ & Hge & Hmin).
  rewrite <- levels_pow in Hge, Hmin. split; [lia | ].
  intros j Hj.
  assert (Hpow : Z.of_nat (2 ^ j) = 2 ^ Z.of_nat j)
    by (rewrite Nat2Z.inj_pow; reflexivity).
  assert (Hle : Z.of_nat (2 ^ levels n) <= Z.of_nat (2 ^ j)).
  { rewrite Hpow. apply Hmin; [lia | ]. rewrite <- Hpow. lia. }
  apply Nat2Z.inj_le in Hle.
  apply (Nat.pow_le_mono_r_iff 2); [lia | exact Hle].
Qed.

Lemma arraySize_wrap L :
  1 <= L <= 2 ^ 62 -> wrap64 (wrap64 (L * 2) - 1) = 2 * L - 1.
Proof.
  intros HL. destruct (Z.eq_dec L (2 ^ 62)) as [-> | Hne]; [reflexivity | ].
  rewrite (wrap64_small (L * 2)) by lia. rewrite wrap64_small; lia.
Qed.

(** [NewTreeFromHashes] on a non-empty slice returns a tree whose node
    array is in the final state of the loop. *)
Lemma NewTreeFromHashes_built hashes :
  hashes <> [] ->
  Z.of_nat (length hashes) <= 2 ^ 62 ->
  is_pow2 (Z.of_nat (length hashes)) \/
    log2_trunc (Z.of_nat (length hashes)) = Z.log2 (Z.of_nat (length hashes)) ->
  exists M,
    NewTreeFromHashes hashes = Val (Some {| merkles := M |}) /\
    built hashes (2 ^ levels (length hashes))
          (2 ^ levels (length hashes) - 1) M.
Proof.
  intros Hne Hmax Hlog.
  assert (Hn : (1 <= length hashes)%nat) by (destruct hashes; simpl; [easy | lia]).
  set (n := length hashes) in *. set (L := (2 ^ levels n)%nat).
  destruct (levels_spec n Hn) as [HnL _]. fold L in HnL.
  assert (HL : nextPowerOfTwo (Z.of_nat n) = Z.of_nat L).
  { unfold L. rewrite levels_pow. apply nextPowerOfTwo_log2_up; [lia | exact Hlog]. }
  assert (HL62 : Z.of_nat L <= 2 ^ 62).
  { unfold L. rewrite levels_pow. apply Z.pow_le_mono_r; [lia | ].
    apply Z.log2_up_le_pow2; lia. }
  unfold NewTreeFromHashes. fold n.
  destruct (Z.eqb_spec (Z.of_nat n) 0) as [ | _]; [lia | ].
  rewrite HL, arraySize_wrap by lia.
  replace (2 * Z.of_nat L - 1) with (Z.of_nat (2 * L - 1)) by lia.
  unfold make. destruct (Z.ltb_spec (Z.of_nat (2 * L - 1)) 0) as [ | _]; [lia | ].
  cbn [bind]. rewrite Nat2Z.id.
  destruct (place_leaves_built hashes L HnL ltac:(lia)) as (M0 & -> & HB0).
  cbn [bind].
  destruct (build_loop_run hashes L ltac:(lia) HL62 (L - 1)%nat 0%nat
              (2 * L - 1)%nat M0 ltac:(lia) ltac:(lia) HB0) as (M & HrunM & HB).
  change (Z.of_nat (2 * 0)) with 0 in HrunM.
  rewrite Nat.add_0_r in HrunM. rewrite HrunM. cbn [bind].
  exists M. split; [reflexivity | exact HB].
Qed.

(** ** The node array as digests *)

Lemma slot_val_parent_slot mem l r :
  slot_val mem (parent_slot mem l r)
  = parent_rule (slot_val mem l) (slot_val mem r).
Proof.
  unfold parent_slot.
  destruct (parent_rule (slot_val mem l) (slot_val mem r)); reflexivity.
Qed.

Lemma nodes_lookup mem M i :
  nodes mem {| merkles := M |} !! i = slot_val mem <$> (M !! i).
Proof. unfold nodes. cbn [merkles]. apply list_lookup_fmap. Qed.

Lemma built_nodes_pair hashes L t M s :
  built hashes L t M -> (s < t)%nat ->
  exists l r,
    nodes hashes {| merkles := M |} !! (2 * s)%nat = Some l /\
    nodes hashes {| merkles := M |} !! (2 * s + 1)%nat = Some r /\
    nodes hashes {| merkles := M |} !! (L + s)%nat = Some (parent_rule l r).
Proof.
  intros HB Hs.
  destruct (built_pair _ _ _ _ HB s Hs) as (l & r & Hl & Hr & Hp).
  exists (slot_val hashes l), (slot_val hashes r).
  rewrite !nodes_lookup, Hl, Hr, Hp. cbn [fmap option_fmap option_map].
  rewrite slot_val_parent_slot. auto.
Qed.

Lemma built_nodes_leaf hashes L t M i :
  built hashes L t M -> (i < length hashes)%nat ->
  nodes hashes {| merkles := M |} !! i = Some (hashes !! i).
Proof.
  intros HB Hi. rewrite nodes_lookup, (built_leaf _ _ _ _ HB i Hi). reflexivity.
Qed.

Lemma built_nodes_pad hashes L t M i :
  built hashes L t M -> (length hashes <= i < L)%nat ->
  nodes hashes {| merkles := M |} !! i = Some None.
Proof.
  intros HB Hi. rewrite nodes_lookup, (built_pad _ _ _ _ HB i Hi). reflexivity.
Qed.

(** ** Levels *)

(** [pair_up] applies the three rules to neighbouring entries. *)
Lemma pair_up_lookup l m :
  pair_up l !! m = parent_rule (l !! (2 * m)%nat) (l !! (2 * m + 1)%nat).
Proof.
  revert l. induction m as [ | m IH]; intros [ | a [ | b rest]]; try reflexivity.
  replace (2 * S m)%nat with (S (S (2 * m))) by lia.
  cbn [pair_up Nat.add]. rewrite !lookup_cons. apply IH.
Qed.

Lemma pair_up_lookup_is_Some l m :
  is_Some (pair_up l !! m) <-> (2 * m < length l)%nat.
Proof.
  rewrite pair_up_lookup, <- lookup_lt_is_Some.
  destruct (l !! (2 * m)%nat) as [a | ]; cbn [parent_rule].
  - destruct (l !! (2 * m + 1)%nat); split; intros _; eexists; reflexivity.
  - split; intros [x Hx]; discriminate.
Qed.

Lemma pair_up_length l : (2 * length (pair_up l) = length l + length l mod 2)%nat.
Proof.
  assert (H : forall m (r : list Hash), (length r <= m)%nat ->
              (2 * length (pair_up r) = length r + length r mod 2)%nat).
  { intros m. induction m as [ | m IH]; intros [ | a [ | b r]] Hr;
      try reflexivity; simpl in Hr; try lia.
    specialize (IH r ltac:(lia)). cbn [pair_up length].
    replace (S (S (length r))) with (length r + 1 * 2)%nat by lia.
    rewrite Nat.Div0.mod_add. lia. }
  apply (H (length l)). lia.
Qed.

Lemma level_succ j l : level (S j) l = pair_up (level j l).
Proof. reflexivity. Qed.

Lemma level_shift j l : level (S j) l = level j (pair_up l).
Proof.
  induction j as [ | j IH]; [reflexivity | ].
  rewrite level_succ, IH. reflexivity.
Qed.

(** Slot [m] of level [j] exists exactly when its subtree contains a real
    leaf. *)
Lemma level_lookup_is_Some j l m :
  is_Some (level j l !! m) <-> (m * 2 ^ j < length l)%nat.
Proof.
  revert m. induction j as [ | j IH]; intros m.
  - change (level 0 l) with l. rewrite lookup_lt_is_Some. simpl. lia.
  - rewrite level_succ, pair_up_lookup_is_Some, <- lookup_lt_is_Some, IH.
    rewrite Nat.pow_succ_r'. lia.
Qed.

(** In the final state, level [j] of the flat array holds [level j hashes]
    followed by nil slots. *)
Lemma built_level hashes k M :
  built hashes (2 ^ k) (2 ^ k - 1) M ->
  (length hashes <= 2 ^ k)%nat ->
  forall j, (j <= k)%nat ->
  forall m, (m < 2 ^ (k - j))%nat ->
    nodes hashes {| merkles := M |} !! (level_offset k j + m)%nat
    = Some (level j hashes !! m).
Proof.
  intros HB Hn. induction j as [ | j IH]; intros Hj m Hm.
  - unfold level_offset. rewrite Nat.sub_0_r in *.
    replace (2 * 2 ^ k - 2 * 2 ^ k + m)%nat with m by lia.
    change (level 0 hashes) with hashes.
    destruct (Nat.lt_ge_cases m (length hashes)) as [Hlt | Hge].
    + apply (built_nodes_leaf _ _ _ _ _ HB Hlt).
    + rewrite (lookup_ge_None_2 hashes m Hge).
      apply (built_nodes_pad _ _ _ _ _ HB). lia.
  - set (q := (k - S j)%nat) in *.
    assert (Hq : (k - j)%nat = S q) by lia.
    assert (HP : (1 <= 2 ^ q)%nat) by (apply Nat.pow_lower_bound; lia).
    assert (HLP : (2 * 2 ^ q <= 2 ^ k)%nat).
    { rewrite <- Nat.pow_succ_r'. apply Nat.pow_le_mono_r; lia. }
    specialize (IH ltac:(lia)). rewrite Hq, Nat.pow_succ_r' in IH.
    pose proof (IH (2 * m)%nat ltac:(lia)) as Hl.
    pose proof (IH (2 * m + 1)%nat ltac:(lia)) as Hr.
    unfold level_offset in *. fold q. rewrite Hq, Nat.pow_succ_r' in Hl, Hr.
    set (s := (2 ^ k - 2 * 2 ^ q + m)%nat).
    destruct (built_nodes_pair _ _ _ _ s HB ltac:(lia)) as (l & r & Hl' & Hr' & Hp).
    replace (2 * 2 ^ k - 2 * (2 * 2 ^ q) + 2 * m)%nat with (2 * s)%nat in Hl by lia.
    replace (2 * 2 ^ k - 2 * (2 * 2 ^ q) + (2 * m + 1))%nat
      with (2 * s + 1)%nat in Hr by lia.
    replace (2 * 2 ^ k - 2 * 2 ^ q + m)%nat with (2 ^ k + s)%nat by lia.
    rewrite Hp, level_succ, pair_up_lookup. congruence.
Qed.

(** The recursive root is the only entry of the top level. *)
Lemma merkle_root_level k :
  forall l, (1 <= length l)%nat -> (length l <= 2 ^ k)%nat ->
            (forall j, (length l <= 2 ^ j)%nat -> (k <= j)%nat) ->
            merkle_root l = level k l !! 0%nat.
Proof.
  induction k as [ | k IH]; intros l H1 Hle Hmin.
  - destruct l as [ | d [ | b rest]]; simpl in H1, Hle; try lia.
    rewrite merkle_root_equation_2. reflexivity.
  - destruct l as [ | a [ | b rest]]; simpl in H1.
    + lia.
    + specialize (Hmin 0%nat). simpl in Hmin. lia.
    + rewrite merkle_root_equation_3, level_shift.
      set (l := a :: b :: rest) in *.
      pose proof (pair_up_length l) as Hlen.
      assert (Hl2 : (2 <= length l)%nat) by (simpl; lia).
      rewrite Nat.pow_succ_r' in Hle.
      pose proof (Nat.mod_upper_bound (length l) 2 ltac:(lia)) as Hmod.
      apply IH; [lia | lia | ].
      intros j Hj. specialize (Hmin (S j)). rewrite Nat.pow_succ_r' in Hmin. lia.
Qed.

(** The last slot of the array of a built tree is present and holds the
    recursive root. *)
Lemma built_last hashes M :
  hashes <> [] ->
  built hashes (leaf_slots (length hashes)) (leaf_slots (length hashes) - 1) M ->
  exists p root,
    M !! (2 * leaf_slots (length hashes) - 2)%nat = Some (Some p) /\
    slot_val hashes (Some p) = Some root /\
    merkle_root hashes = Some root.
Proof.
  intros Hne HB. unfold leaf_slots in *.
  assert (Hn : (1 <= length hashes)%nat) by (destruct hashes; simpl; [easy | lia]).
  destruct (levels_spec _ Hn) as [HnL Hmin].
  set (k := levels (length hashes)) in *.
  assert (HP : (1 <= 2 ^ k)%nat) by (apply Nat.pow_lower_bound; lia).
  pose proof (built_level hashes k M HB HnL k (Nat.le_refl k) 0%nat) as Hlast.
  rewrite Nat.sub_diag in Hlast. specialize (Hlast ltac:(simpl; lia)).
  unfold level_offset in Hlast. rewrite Nat.sub_diag in Hlast.
  replace (2 * 2 ^ k - 2 * 2 ^ 0 + 0)%nat with (2 * 2 ^ k - 2)%nat in Hlast
    by (simpl; lia).
  rewrite <- (merkle_root_level k hashes Hn HnL Hmin) in Hlast.
  destruct (proj2 (level_lookup_is_Some k hashes 0) ltac:(lia)) as [root Hroot].
  rewrite <- (merkle_root_level k hashes Hn HnL Hmin) in Hroot.
  rewrite Hroot, nodes_lookup in Hlast.
  destruct (M !! (2 * 2 ^ k - 2)%nat) as [[p | ] | ] eqn:HM; try discriminate.
  injection Hlast as Hp.
  exists p, root. split; [reflexivity | split; [exact Hp | exact Hroot]].
Qed.

Lemma Root_last mem M p :
  (1 <= length M)%nat -> Z.of_nat (length M) < 2 ^ 63 ->
  M !! (length M - 1)%nat = Some (Some p) ->
  Root mem (Some {| merkles := M |}) = deref mem p.
Proof.
  intros H1 Hmax HM. unfold Root. cbn [merkles].
  rewrite wrap64_small by lia.
  replace (Z.of_nat (length M) - 1) with (Z.of_nat (length M - 1)) by lia.
  rewrite (load_at M _ _ HM). reflexivity.
Qed.

Lemma leaf_slots_bounds n b :
  (1 <= n)%nat -> 0 <= b -> Z.of_nat n <= 2 ^ b ->
  (n <= leaf_slots n)%nat /\ (1 <= leaf_slots n)%nat /\
  Z.of_nat (leaf_slots n) <= 2 ^ b.
Proof.
  intros Hn Hb Hmax. unfold leaf_slots.
  destruct (levels_spec n Hn) as [HnL _].
  split; [exact HnL | split; [lia | ]].
  rewrite levels_pow. apply Z.pow_le_mono_r; [lia | ].
  apply Z.log2_up_le_pow2; lia.
Qed.

(** [Root] on a built tree returns the recursive root. *)
Lemma built_root hashes M :
  hashes <> [] ->
  Z.of_nat (length hashes) <= 2 ^ 62 ->
  built hashes (leaf_slots (length hashes)) (leaf_slots (length hashes) - 1) M ->
  exists p root,
    M !! (2 * leaf_slots (length hashes) - 2)%nat = Some (Some p) /\
    slot_val hashes (Some p) = Some root /\
    merkle_root hashes = Some root /\
    Root hashes (Some {| merkles := M |}) = Val root.
Proof.
  intros Hne Hmax HB.
  assert (Hn : (1 <= length hashes)%nat) by (destruct hashes; simpl; [easy | lia]).
  destruct (built_last hashes M Hne HB) as (p & root & HM & Hp & Hroot).
  destruct (leaf_slots_bounds (length hashes) 62 Hn ltac:(lia) Hmax)
    as (_ & HL1 & HL62).
  pose proof (built_length _ _ _ _ HB) as Hlen.
  exists p, root.
  split; [exact HM | split; [exact Hp | split; [exact Hroot | ]]].
  rewrite (Root_last hashes M p); rewrite ?Hlen; try lia.
  - apply deref_slot_val. exact Hp.
  - rewrite <- HM. f_equal. lia.
Qed.

(** Slices of at most [2 ^ 47] digests are built without a panic. *)
Lemma NewTreeFromHashes_run hashes :
  hashes <> [] ->
  Z.of_nat (length hashes) <= 2 ^ 47 ->
  exists M,
    NewTreeFromHashes hashes = Val (Some {| merkles := M |}) /\
    built hashes (leaf_slots (length hashes))
          (leaf_slots (length hashes) - 1) M.
Proof.
  intros Hne Hmax.
  assert (Hn : (1 <= length hashes)%nat) by (destruct hashes; simpl; [easy | lia]).
  apply NewTreeFromHashes_built; [exact Hne | lia | ].
  right. apply log2_trunc_exact. lia.
Qed.

Lemma log2_pred_double k : 0 <= k -> Z.log2 (2 * 2 ^ k - 1) = k.
Proof.
  intros Hk. apply Z.log2_unique; [exact Hk | ].
  pose proof (pow2_pos k Hk). rewrite Z.pow_succ_r by exact Hk. lia.
Qed.

(** ** The claims *)

(** C7 (as amended).  For every [n] with [1 <= n <= 2^62] that is a power
    of two, or at which the float64 logarithm truncates to the exact
    integer logarithm, [nextPowerOfTwo n] is the smallest power of two
    greater than or equal to [n]; it is [n] itself when [n] is a power of
    two, and [1] for [n = 1]. *)
Theorem nextPowerOfTwo_correct n :
  1 <= n <= 2 ^ 62 ->
  is_pow2 n \/ log2_trunc n = Z.log2 n ->
  smallest_pow2_geq n (nextPowerOfTwo n) /\
  (is_pow2 n -> nextPowerOfTwo n = n) /\
  (n = 1 -> nextPowerOfTwo n = 1).
Proof.
  intros Hn Hlog.
  rewrite (nextPowerOfTwo_log2_up n Hn Hlog).
  split; [apply smallest_pow2_geq_log2_up; lia | split].
  - intros (k & Hk & ->). rewrite Z.log2_up_pow2; easy.
  - intros ->. reflexivity.
Qed.

(** C1.  For every non-empty slice of digests, [NewTreeFromHashes] returns
    a tree whose array has [2L - 1] slots, [L] the smallest power of two
    that is at least the number of digests; the digests fill the first
    slots and the rest of the leaf level is nil; for every pair of slots
    [(2s, 2s + 1)] the slot [L + s] holds the parent given by the three
    rules; and slot [2L - 2] holds the recursively defined Merkle root. *)
Theorem NewTreeFromHashes_spec hashes :
  hashes <> [] ->
  Z.of_nat (length hashes) <= 2 ^ 47 ->
  smallest_pow2_geq (Z.of_nat (length hashes))
                    (Z.of_nat (leaf_slots (length hashes))) /\
  exists t root,
    NewTreeFromHashes hashes = Val (Some t) /\
    length (nodes hashes t) = (2 * leaf_slots (length hashes) - 1)%nat /\
    (forall i, (i < length hashes)%nat ->
               nodes hashes t !! i = Some (hashes !! i)) /\
    (forall i, (length hashes <= i < leaf_slots (length hashes))%nat ->
               nodes hashes t !! i = Some None) /\
    (forall s, (s < leaf_slots (length hashes) - 1)%nat ->
       exists l r,
         nodes hashes t !! (2 * s)%nat = Some l /\
         nodes hashes t !! (2 * s + 1)%nat = Some r /\
         nodes hashes t !! (leaf_slots (length hashes) + s)%nat
         = Some (parent_rule l r)) /\
    nodes hashes t !! (2 * leaf_slots (length hashes) - 2)%nat
    = Some (Some root) /\
    merkle_root hashes = Some root.
Proof.
  intros Hne Hmax. split.
  - unfold leaf_slots. rewrite levels_pow. apply smallest_pow2_geq_log2_up.
    destruct hashes; simpl; [easy | lia].
  - destruct (NewTreeFromHashes_run hashes Hne Hmax) as (M & Hrun & HB).
    destruct (built_last hashes M Hne HB) as (p & root & HM & Hp & Hroot).
    exists {| merkles := M |}, root.
    split; [exact Hrun | split; [ | split; [ | split; [ | split; [ | split]]]]].
    + unfold nodes. rewrite length_fmap. apply (built_length _ _ _ _ HB).
    + intros i Hi. apply (built_nodes_leaf _ _ _ _ _ HB Hi).
    + intros i Hi. apply (built_nodes_pad _ _ _ _ _ HB Hi).
    + intros s Hs. apply (built_nodes_pair _ _ _ _ _ HB Hs).
    + rewrite nodes_lookup, HM. cbn [fmap option_fmap option_map]. rewrite Hp.
      reflexivity.
    + exact Hroot.
Qed.

(** C8.  For every non-empty slice the last slot of the node array is
    present, so [Root] does not take its fallback branch: it returns the
    digest that slot points to, the Merkle root, without a panic. *)
Theorem Root_present hashes :
  hashes <> [] ->
  Z.of_nat (length hashes) <= 2 ^ 47 ->
  exists t p root,
    NewTreeFromHashes hashes = Val (Some t) /\
    merkles t !! (length (merkles t) - 1)%nat = Some (Some p) /\
    deref hashes p = Val root /\
    Root hashes (Some t) = Val root /\
    merkle_root hashes = Some root.
Proof.
  intros Hne Hmax.
  destruct (NewTreeFromHashes_run hashes Hne Hmax) as (M & Hrun & HB).
  destruct (built_root hashes M Hne ltac:(lia) HB) as (p & root & HM & Hp & Hroot & HR).
  exists {| merkles := M |}, p, root. cbn [merkles].
  rewrite (built_length _ _ _ _ HB).
  replace (2 * leaf_slots (length hashes) - 1 - 1)%nat
    with (2 * leaf_slots (length hashes) - 2)%nat by lia.
  split; [exact Hrun | split; [exact HM | split; [ | split; [exact HR | exact Hroot]]]].
  apply deref_slot_val. exact Hp.
Qed.

(** C10.  The presence invariant of the built array: the first [n] leaf
    slots are present and the other leaf slots absent; an inner slot is
    absent exactly when its left child is; slot [m] of level [j] is
    present exactly when its subtree contains a real leaf, that is when
    [m * 2 ^ j < n]; so the first slot of every level, the root included,
    is present. *)
Theorem presence_invariant hashes :
  hashes <> [] ->
  Z.of_nat (length hashes) <= 2 ^ 47 ->
  exists t,
    NewTreeFromHashes hashes = Val (Some t) /\
    (forall i, (i < length hashes)%nat ->
               exists h, nodes hashes t !! i = Some (Some h)) /\
    (forall i, (length hashes <= i < leaf_slots (length hashes))%nat ->
               nodes hashes t !! i = Some None) /\
    (forall s, (s < leaf_slots (length hashes) - 1)%nat ->
       nodes hashes t !! (leaf_slots (length hashes) + s)%nat = Some None <->
       nodes hashes t !! (2 * s)%nat = Some None) /\
    (forall j m, (j <= levels (length hashes))%nat ->
       (m < 2 ^ (levels (length hashes) - j))%nat ->
       (exists h, nodes hashes t !! (level_offset (levels (length hashes)) j + m)%nat
                  = Some (Some h)) <->
       (m * 2 ^ j < length hashes)%nat) /\
    (forall j, (j <= levels (length hashes))%nat ->
       exists h, nodes hashes t !! (level_offset (levels (length hashes)) j)
                 = Some (Some h)).
Proof.
  intros Hne Hmax.
  assert (Hn : (1 <= length hashes)%nat) by (destruct hashes; simpl; [easy | lia]).
  destruct (NewTreeFromHashes_run hashes Hne Hmax) as (M & Hrun & HB).
  destruct (levels_spec _ Hn) as [HnL _].
  assert (Hlevel : forall j m, (j <= levels (length hashes))%nat ->
            (m < 2 ^ (levels (length hashes) - j))%nat ->
            (exists h, nodes hashes {| merkles := M |}
                         !! (level_offset (levels (length hashes)) j + m)%nat
                       = Some (Some h)) <->
            (m * 2 ^ j < length hashes)%nat).
  { intros j m Hj Hm.
    rewrite (built_level hashes _ M HB HnL j Hj m Hm).
    rewrite <- level_lookup_is_Some. unfold is_Some.
    split; intros [h Hh]; exists h; congruence. }
  exists {| merkles := M |}.
  split; [exact Hrun | split; [ | split; [ | split; [ | split]]]].
  - intros i Hi. destruct (lookup_lt_is_Some_2 hashes i Hi) as [h Hh].
    exists h. rewrite (built_nodes_leaf _ _ _ _ _ HB Hi), Hh. reflexivity.
  - intros i Hi. apply (built_nodes_pad _ _ _ _ _ HB Hi).
  - intros s Hs.
    destruct (built_nodes_pair _ _ _ _ _ HB Hs) as (l & r & -> & _ & ->).
    destruct l as [a | ]; [ | split; reflexivity].
    destruct r; split; discriminate.
  - exact Hlevel.
  - intros j Hj.
    assert (Hm : (0 < 2 ^ (levels (length hashes) - j))%nat).
    { apply Nat.pow_lower_bound. lia. }
    destruct (proj2 (Hlevel j 0%nat Hj Hm) ltac:(lia)) as [h Hh].
    exists h. rewrite Nat.add_0_r in Hh. exact Hh.
Qed.

(** C4.  [Depth] of the tree built from [n] digests is the least [k]
    with [n <= 2 ^ k]: the ceiling of the binary logarithm of [n] when
    [n > 1], and [0] when [n <= 1], the nil tree of the empty slice
    included; a tree with [2 * 2 ^ k - 1] slots has depth [k]. *)
Theorem Depth_spec hashes :
  Z.of_nat (length hashes) <= 2 ^ 47 ->
  (exists tree,
     NewTreeFromHashes hashes = Val tree /\
     Depth tree = Z.log2_up (Z.of_nat (length hashes)) /\
     (1 < Z.of_nat (length hashes) ->
      2 ^ (Depth tree - 1) < Z.of_nat (length hashes) <= 2 ^ Depth tree) /\
     (Z.of_nat (length hashes) <= 1 -> Depth tree = 0)) /\
  (forall t k, (k <= 46)%nat -> length (merkles t) = (2 * 2 ^ k - 1)%nat ->
               Depth (Some t) = Z.of_nat k).
Proof.
  intros Hmax. split.
  - assert (Hspec : forall d, d = Z.log2_up (Z.of_nat (length hashes)) ->
        (1 < Z.of_nat (length hashes) ->
         2 ^ (d - 1) < Z.of_nat (length hashes) <= 2 ^ d) /\
        (Z.of_nat (length hashes) <= 1 -> d = 0)).
    { intros d ->. split.
      - intros H1. pose proof (Z.log2_up_spec _ H1) as Hs.
        replace (Z.pred (Z.log2_up (Z.of_nat (length hashes))))
          with (Z.log2_up (Z.of_nat (length hashes)) - 1) in Hs by lia.
        exact Hs.
      - intros H1. apply Z.log2_up_eqn0. exact H1. }
    destruct hashes as [ | d rest] eqn:Hh.
    + exists None. split; [reflexivity | split; [reflexivity | ]].
      apply Hspec. reflexivity.
    + rewrite <- Hh in *. assert (Hne : hashes <> []) by (rewrite Hh; easy).
      destruct (NewTreeFromHashes_run hashes Hne Hmax) as (M & Hrun & HB).
      exists (Some {| merkles := M |}).
      assert (Hn : (1 <= length hashes)%nat) by (rewrite Hh; simpl; lia).
      destruct (leaf_slots_bounds (length hashes) 47 Hn ltac:(lia) Hmax)
        as (_ & HL1 & HL47).
      assert (HD : Depth (Some {| merkles := M |})
                   = Z.log2_up (Z.of_nat (length hashes))).
      { unfold Depth. cbn [merkles]. rewrite (built_length _ _ _ _ HB).
        rewrite log2_trunc_exact by lia.
        replace (Z.of_nat (2 * leaf_slots (length hashes) - 1))
          with (2 * Z.of_nat (leaf_slots (length hashes)) - 1) by lia.
        unfold leaf_slots. rewrite levels_pow.
        apply log2_pred_double. apply Z.log2_up_nonneg. }
      split; [exact Hrun | split; [exact HD | ]].
      apply Hspec. exact HD.
  - intros t k Hk Hlen. unfold Depth. rewrite Hlen.
    assert (Hpow : Z.of_nat (2 ^ k) = 2 ^ Z.of_nat k)
      by (rewrite Nat2Z.inj_pow; reflexivity).
    assert (Hpos : 0 < 2 ^ Z.of_nat k) by (apply pow2_pos; lia).
    assert (Hle : 2 ^ Z.of_nat k <= 2 ^ 46) by (apply Z.pow_le_mono_r; lia).
    replace (Z.of_nat (2 * 2 ^ k - 1)) with (2 * 2 ^ Z.of_nat k - 1) by lia.
    rewrite log2_trunc_exact by lia.
    apply log2_pred_double. lia.
Qed.

(** C3.  The tree built from the one-element slice [[d]] has the single
    slot [&hashes[0]]; [Root] returns [d], with no hashing, and [Depth]
    returns [0]. *)
Theorem single_leaf d :
  exists t,
    NewTreeFromHashes [d] = Val (Some t) /\
    merkles t = [Some (Elem 0)] /\
    Root [d] (Some t) = Val d /\
    Depth (Some t) = 0.
Proof.
  exists {| merkles := [Some (Elem 0)] |}.
  split; [reflexivity | split; [reflexivity | split; [reflexivity | ]]].
  unfold Depth. cbn [merkles length]. rewrite log2_trunc_exact by lia.
  reflexivity.
Qed.

(** C2.  The tree built from [[a; b; c]] has four leaf slots, the fourth
    nil; its level-1 nodes are [p0 = Hash(a || b)] and
    [p1 = Hash(c || c)]; and [Root] returns [Hash(p0 || p1)]. *)
Theorem three_leaves a b c :
  let p0 := hasher (Bytes a ++ Bytes b) in
  let p1 := hasher (Bytes c ++ Bytes c) in
  exists t,
    NewTreeFromHashes [a; b; c] = Val (Some t) /\
    nodes [a; b; c] t
    = [Some a; Some b; Some c; None;
       Some p0; Some p1; Some (hasher (Bytes p0 ++ Bytes p1))] /\
    Root [a; b; c] (Some t) = Val (hasher (Bytes p0 ++ Bytes p1)).
Proof.
  intros p0 p1. subst p0 p1. rewrite <- !HashMerkleBranches_eq.
  exists {| merkles :=
    [Some (Elem 0); Some (Elem 1); Some (Elem 2); None;
     Some (Fresh (HashMerkleBranches a b));
     Some (Fresh (HashMerkleBranches c c));
     Some (Fresh (HashMerkleBranches (HashMerkleBranches a b)
                                     (HashMerkleBranches c c)))] |}.
  split; [ | split; reflexivity].
  unfold NewTreeFromHashes, nextPowerOfTwo. cbn [length].
  change (Z.of_nat 3) with 3.
  rewrite (log2_trunc_exact 3) by lia. reflexivity.
Qed.

(** C5.  Both constructors return the nil tree for the empty input, not
    an error; on the nil tree [Root] returns [UndefHash] and [Depth]
    returns [0]; and no operation fails on any input: for every input
    slice the constructors, and [Root] on the tree they return, end
    with a value and not with a panic. *)
Theorem empty_input_and_totality :
  NewTreeFromHashes [] = Val None /\
  NewTreeFromSlices [] = Val None /\
  (forall mem, Root mem None = Val UndefHash) /\
  Depth None = 0 /\
  (forall hashes, Z.of_nat (length hashes) <= 2 ^ 47 ->
     exists tree h, NewTreeFromHashes hashes = Val tree /\
                    Root hashes tree = Val h) /\
  (forall slices, Z.of_nat (length slices) <= 2 ^ 47 ->
     exists tree h, NewTreeFromSlices slices = Val tree /\
                    Root (hash_slices slices) tree = Val h).
Proof.
  assert (Htotal : forall hashes, Z.of_nat (length hashes) <= 2 ^ 47 ->
            exists tree h, NewTreeFromHashes hashes = Val tree /\
                           Root hashes tree = Val h).
  { intros hashes Hmax. destruct hashes as [ | d rest] eqn:Hh.
    - exists None, UndefHash. split; reflexivity.
    - rewrite <- Hh in *. assert (Hne : hashes <> []) by (rewrite Hh; easy).
      destruct (NewTreeFromHashes_run hashes Hne Hmax) as (M & Hrun & HB).
      destruct (built_root hashes M Hne ltac:(lia) HB) as (p & root & _ & _ & _ & HR).
      exists (Some {| merkles := M |}), root. split; assumption. }
  split; [reflexivity | split; [reflexivity | split; [reflexivity | split;
    [reflexivity | split; [exact Htotal | ]]]]].
  intros slices Hmax. unfold NewTreeFromSlices. apply Htotal.
  unfold hash_slices. rewrite length_map. exact Hmax.
Qed.

(** C9 (as amended).  In the tree built from a non-empty slice, leaf slot
    [i] is the address of element [i] of the caller's slice and every
    other non-nil slot is the address of a digest that only the tree
    refers to.  So when the caller overwrites elements of the slice, the
    leaf slots show the new elements, every other slot is unchanged, and
    [Root] is unchanged for two or more digests; for a single digest
    [Root] returns the new element. *)
Theorem ownership hashes :
  hashes <> [] ->
  Z.of_nat (length hashes) <= 2 ^ 47 ->
  exists t,
    NewTreeFromHashes hashes = Val (Some t) /\
    (forall i, (i < length hashes)%nat ->
               merkles t !! i = Some (Some (Elem i))) /\
    (forall i p, (length hashes <= i)%nat -> merkles t !! i = Some (Some p) ->
                 exists h, p = Fresh h) /\
    forall mem', length mem' = length hashes ->
      (forall i, (i < length hashes)%nat ->
                 nodes mem' t !! i = Some (mem' !! i)) /\
      (forall i, (length hashes <= i)%nat ->
                 nodes mem' t !! i = nodes hashes t !! i) /\
      ((2 <= length hashes)%nat ->
       Root mem' (Some t) = Root hashes (Some t)) /\
      (forall d', mem' = [d'] -> Root mem' (Some t) = Val d').
Proof.
  intros Hne Hmax.
  assert (Hn : (1 <= length hashes)%nat) by (destruct hashes; simpl; [easy | lia]).
  destruct (NewTreeFromHashes_run hashes Hne Hmax) as (M & Hrun & HB).
  destruct (leaf_slots_bounds (length hashes) 47 Hn ltac:(lia) Hmax)
    as (HnL & HL1 & HL47).
  pose proof (built_length _ _ _ _ HB) as Hlen.
  assert (Hinner : forall i p, (length hashes <= i)%nat ->
            M !! i = Some (Some p) -> exists h, p = Fresh h).
  { intros i p Hi HM.
    destruct (Nat.lt_ge_cases i (leaf_slots (length hashes))) as [HiL | HiL].
    - rewrite (built_pad _ _ _ _ HB i) in HM by lia. discriminate.
    - apply (built_inner _ _ _ _ HB i p HiL HM). }
  destruct (built_root hashes M Hne ltac:(lia) HB) as (p & root & HM & Hp & _ & HR).
  exists {| merkles := M |}. cbn [merkles].
  split; [exact Hrun | split; [apply (built_leaf _ _ _ _ HB) | split; [exact Hinner | ]]].
  intros mem' Hmem.
  split; [ | split; [ | split]].
  - intros i Hi. rewrite nodes_lookup, (built_leaf _ _ _ _ HB i Hi). reflexivity.
  - intros i Hi. rewrite !nodes_lookup.
    destruct (M !! i) as [[q | ] | ] eqn:HMi; try reflexivity.
    destruct (Hinner i q Hi HMi) as [h ->]. reflexivity.
  - intros H2. rewrite HR.
    assert (HL2 : (2 <= leaf_slots (length hashes))%nat) by lia.
    destruct (Hinner (2 * leaf_slots (length hashes) - 2)%nat p ltac:(lia) HM)
      as [h ->].
    rewrite (Root_last mem' M (Fresh h)); rewrite ?Hlen; try lia.
    + simpl in Hp. simpl. congruence.
    + rewrite <- HM. f_equal. lia.
  - intros d' ->. simpl in Hmem.
    destruct hashes as [ | d [ | d2 rest]]; simpl in Hmem; try discriminate.
    change (leaf_slots (length [d])) with 1%nat in *.
    pose proof (built_leaf _ _ _ _ HB 0%nat ltac:(simpl; lia)) as H0.
    rewrite (Root_last [d'] M (Elem 0)); rewrite ?Hlen; try (simpl; lia).
    + reflexivity.
    + exact H0.
Qed.

(** ** Further properties of the package *)

Lemma nextPowerOfTwo_test n :
  is_int n ->
  Z.land n (wrap64 (n - 1)) = 0 <-> n = 0 \/ n = min_int \/ is_pow2 n.
Proof.
  unfold is_int, min_int, max_int. intros Hint.
  destruct (Z.eq_dec n 0) as [-> | Hn0]; [split; auto | ].
  destruct (Z.eq_dec n (- 2 ^ 63)) as [-> | Hmin]; [split; auto | ].
  rewrite wrap64_small by lia.
  destruct (Z.lt_ge_cases n 0) as [Hneg | Hpos].
  - split.
    + intros Hland. exfalso.
      assert (Z.land n (n - 1) < 0) by (apply Z.land_neg; lia). lia.
    + intros [? | [? | (k & Hk & ->)]]; [lia | lia | ].
      pose proof (pow2_pos k Hk). lia.
  - rewrite land_pred_pow2 by lia. split; [auto | ].
    intros [? | [? | ?]]; [lia | lia | assumption].
Qed.

(** X1.  [nextPowerOfTwo] returns its argument unchanged exactly for [0],
    for the smallest [int] and for the powers of two; whatever the
    logarithm returns. *)
Theorem nextPowerOfTwo_fixed n :
  is_int n ->
  nextPowerOfTwo n = n <-> n = 0 \/ n = min_int \/ is_pow2 n.
Proof.
  intros Hint. pose proof (nextPowerOfTwo_test n Hint) as Htest.
  unfold nextPowerOfTwo.
  destruct (Z.eqb_spec (Z.land n (wrap64 (n - 1))) 0) as [Hland | Hland].
  - split; [intros _; apply Htest; exact Hland | reflexivity].
  - split; [ | intros H; apply Htest in H; contradiction].
    intros Hn. unfold shl_int, wrapU64 in Hn.
    set (e := (log2_trunc n + 1) mod 2 ^ 64) in *.
    assert (He : 0 <= e < 2 ^ 64) by (apply Z.mod_pos_bound; lia).
    rewrite Z.shiftl_1_l in Hn.
    destruct (Z.lt_ge_cases e 63) as [Hlt | Hge].
    + right. right. exists e. split; [lia | ].
      rewrite <- Hn. apply wrap64_small.
      pose proof (pow2_pos e ltac:(lia)).
      assert (2 ^ e <= 2 ^ 62) by (apply Z.pow_le_mono_r; lia). lia.
    + destruct (Z.eq_dec e 63) as [He63 | Hne].
      * right. left. rewrite <- Hn, He63. reflexivity.
      * left. rewrite <- Hn. unfold wrap64.
        replace e with (64 + (e - 64)) by lia.
        rewrite Z.pow_add_r by lia.
        rewrite Z.add_comm, Z.mul_comm, Z.mod_add by lia. reflexivity.
Qed.

(** X2.  On [1 .. 2^62], where the logarithm is exact, the result of
    [nextPowerOfTwo] is at least [n] and less than [2 * n], and applying
    [nextPowerOfTwo] to it again changes nothing. *)
Theorem nextPowerOfTwo_bounds n :
  1 <= n <= 2 ^ 62 ->
  is_pow2 n \/ log2_trunc n = Z.log2 n ->
  n <= nextPowerOfTwo n < 2 * n /\
  nextPowerOfTwo (nextPowerOfTwo n) = nextPowerOfTwo n.
Proof.
  intros Hn Hlog.
  rewrite (nextPowerOfTwo_log2_up n Hn Hlog).
  destruct (smallest_pow2_geq_log2_up n ltac:(lia)) as (_ & Hge & _).
  assert (Hlt : 2 ^ Z.log2_up n < 2 * n).
  { destruct (Z.eq_dec n 1) as [-> | Hne]; [reflexivity | ].
    destruct (Z.log2_up_spec n ltac:(lia)) as [Hlo _].
    assert (Hk : 0 < Z.log2_up n) by (apply Z.log2_up_pos; lia).
    replace (Z.log2_up n) with (Z.succ (Z.pred (Z.log2_up n))) at 1 by lia.
    rewrite Z.pow_succ_r by lia. lia. }
  split; [lia | ].
  assert (Hle : 2 ^ Z.log2_up n <= 2 ^ 62).
  { apply Z.pow_le_mono_r; [lia | ]. apply Z.log2_up_le_pow2; lia. }
  rewrite nextPowerOfTwo_log2_up.
  - rewrite Z.log2_up_pow2 by apply Z.log2_up_nonneg. reflexivity.
  - lia.
  - left. exists (Z.log2_up n). split; [apply Z.log2_up_nonneg | reflexivity].
Qed.

(** X3.  The node array of the tree built from [n >= 1] digests has
    [2 * 2 ^ Depth() - 1] slots, at least [2n - 1] and at most
    [4n - 3]. *)
Theorem node_array_size hashes :
  hashes <> [] ->
  Z.of_nat (length hashes) <= 2 ^ 47 ->
  exists t,
    NewTreeFromHashes hashes = Val (Some t) /\
    Z.of_nat (length (merkles t)) = 2 * 2 ^ Depth (Some t) - 1 /\
    (2 * length hashes - 1 <= length (merkles t)
     <= 4 * length hashes - 3)%nat.
Proof.
  intros Hne Hmax.
  assert (Hn : (1 <= length hashes)%nat) by (destruct hashes; simpl; [easy | lia]).
  destruct (NewTreeFromHashes_run hashes Hne Hmax) as (M & Hrun & HB).
  destruct (leaf_slots_bounds (length hashes) 47 Hn ltac:(lia) Hmax)
    as (HnL & HL1 & HL47).
  pose proof (built_length _ _ _ _ HB) as Hlen.
  exists {| merkles := M |}. cbn [merkles].
  split; [exact Hrun | split].
  - unfold Depth. cbn [merkles]. rewrite Hlen.
    rewrite log2_trunc_exact by lia.
    replace (Z.of_nat (2 * leaf_slots (length hashes) - 1))
      with (2 * Z.of_nat (leaf_slots (length hashes)) - 1) by lia.
    unfold leaf_slots. rewrite levels_pow.
    rewrite log2_pred_double by apply Z.log2_up_nonneg. reflexivity.
  - rewrite Hlen. split; [lia | ].
    assert (Z.of_nat (leaf_slots (length hashes)) < 2 * Z.of_nat (length hashes)).
    { unfold leaf_slots. rewrite levels_pow.
      destruct (Z.eq_dec (Z.of_nat (length hashes)) 1) as [-> | H1];
        [reflexivity | ].
      destruct (Z.log2_up_spec (Z.of_nat (length hashes)) ltac:(lia)) as [Hlo _].
      assert (Hk : 0 < Z.log2_up (Z.of_nat (length hashes)))
        by (apply Z.log2_up_pos; lia).
      replace (Z.log2_up (Z.of_nat (length hashes)))
        with (Z.succ (Z.pred (Z.log2_up (Z.of_nat (length hashes))))) at 1 by lia.
      rewrite Z.pow_succ_r by lia. lia. }
    lia.
Qed.

(** X4.  Level by level: in the tree with [2 ^ k] leaf slots built from
    [hashes], slot [m] of level [j] is entry [m] of [pair_up] applied [j]
    times to [hashes], and nil past the end of that list. *)
Theorem node_array_levels hashes :
  hashes <> [] ->
  Z.of_nat (length hashes) <= 2 ^ 47 ->
  exists t,
    NewTreeFromHashes hashes = Val (Some t) /\
    forall j m, (j <= levels (length hashes))%nat ->
                (m < 2 ^ (levels (length hashes) - j))%nat ->
                nodes hashes t !! (level_offset (levels (length hashes)) j + m)%nat
                = Some (level j hashes !! m).
Proof.
  intros Hne Hmax.
  assert (Hn : (1 <= length hashes)%nat) by (destruct hashes; simpl; [easy | lia]).
  destruct (NewTreeFromHashes_run hashes Hne Hmax) as (M & Hrun & HB).
  destruct (levels_spec _ Hn) as [HnL _].
  exists {| merkles := M |}. split; [exact Hrun | ].
  intros j m Hj Hm. apply (built_level hashes _ M HB HnL j Hj m Hm).
Qed.

(** X5.  [NewTreeFromSlices] hashes every payload and builds the tree of
    the digests: for a non-empty slice of payloads [Root] returns the
    Merkle root of the hashed payloads and [Depth] the least [k] with
    [len(slices) <= 2 ^ k]. *)
Theorem NewTreeFromSlices_root slices :
  slices <> [] ->
  Z.of_nat (length slices) <= 2 ^ 47 ->
  exists t root,
    NewTreeFromSlices slices = Val (Some t) /\
    Root (hash_slices slices) (Some t) = Val root /\
    merkle_root (map hasher slices) = Some root /\
    Depth (Some t) = Z.log2_up (Z.of_nat (length slices)).
Proof.
  intros Hne Hmax. unfold NewTreeFromSlices.
  assert (Hlen : length (hash_slices slices) = length slices)
    by (unfold hash_slices; apply length_map).
  assert (Hne' : hash_slices slices <> []).
  { intros Heq. apply Hne. destruct slices; [reflexivity | discriminate Heq]. }
  assert (Hn : (1 <= length (hash_slices slices))%nat)
    by (destruct (hash_slices slices); simpl; [easy | lia]).
  destruct (NewTreeFromHashes_run (hash_slices slices) Hne' ltac:(lia))
    as (M & Hrun & HB).
  destruct (built_root _ M Hne' ltac:(lia) HB) as (p & root & _ & _ & Hroot & HR).
  destruct (leaf_slots_bounds _ 47 Hn ltac:(lia) ltac:(lia)) as (_ & HL1 & HL47).
  exists {| merkles := M |}, root.
  split; [exact Hrun | split; [exact HR | split; [exact Hroot | ]]].
  unfold Depth. cbn [merkles]. rewrite (built_length _ _ _ _ HB).
  rewrite log2_trunc_exact by lia.
  replace (Z.of_nat (2 * leaf_slots (length (hash_slices slices)) - 1))
    with (2 * Z.of_nat (leaf_slots (length (hash_slices slices))) - 1) by lia.
  unfold leaf_slots. rewrite levels_pow, Hlen.
  apply log2_pred_double. apply Z.log2_up_nonneg.
Qed.

(** *** The duplicated last digest *)

Lemma pair_up_app_even l r :
  (length l mod 2 = 0)%nat -> pair_up (l ++ r) = pair_up l ++ pair_up r.
Proof.
  assert (H : forall m (l : list Hash), (length l <= m)%nat ->
              (length l mod 2 = 0)%nat ->
              pair_up (l ++ r) = pair_up l ++ pair_up r).
  { intros m. induction m as [ | m IH]; intros [ | a [ | b rest]] Hm Hev;
      try reflexivity; simpl in Hm; try lia.
    - vm_compute in Hev. discriminate Hev.
    - cbn [app pair_up]. f_equal. apply IH; [lia | ].
      cbn [length] in Hev.
      replace (S (S (length rest))) with (length rest + 1 * 2)%nat in Hev by lia.
      rewrite Nat.Div0.mod_add in Hev. exact Hev. }
  apply (H (length l)). lia.
Qed.

Lemma merkle_root_step l :
  (2 <= length l)%nat -> merkle_root l = merkle_root (pair_up l).
Proof.
  destruct l as [ | a [ | b rest]]; simpl; try lia.
  intros _. apply merkle_root_equation_3.
Qed.

(** X6.  A slice with an odd number (three or more) of digests and the
    slice with its last digest repeated once more have the same [Root]:
    the root does not tell the two inputs apart. *)
Theorem Root_repeated_last l x :
  (2 <= length l)%nat ->
  (length l mod 2 = 0)%nat ->
  Z.of_nat (length l) + 2 <= 2 ^ 47 ->
  exists t t' root,
    NewTreeFromHashes (l ++ [x]) = Val (Some t) /\
    NewTreeFromHashes (l ++ [x; x]) = Val (Some t') /\
    Root (l ++ [x]) (Some t) = Val root /\
    Root (l ++ [x; x]) (Some t') = Val root.
Proof.
  intros H2 Hev Hmax.
  assert (Hne : l ++ [x] <> []) by (destruct l; discriminate).
  assert (Hne' : l ++ [x; x] <> []) by (destruct l; discriminate).
  assert (Hlen : length (l ++ [x]) = (length l + 1)%nat)
    by (rewrite length_app; reflexivity).
  assert (Hlen' : length (l ++ [x; x]) = (length l + 2)%nat)
    by (rewrite length_app; reflexivity).
  destruct (NewTreeFromHashes_run _ Hne ltac:(lia)) as (M & Hrun & HB).
  destruct (NewTreeFromHashes_run _ Hne' ltac:(lia)) as (M' & Hrun' & HB').
  destruct (built_root _ M Hne ltac:(lia) HB) as (_ & root & _ & _ & Hroot & HR).
  destruct (built_root _ M' Hne' ltac:(lia) HB') as (_ & root' & _ & _ & Hroot' & HR').
  assert (Heq : merkle_root (l ++ [x]) = merkle_root (l ++ [x; x])).
  { rewrite (merkle_root_step (l ++ [x])), (merkle_root_step (l ++ [x; x])) by lia.
    rewrite !pair_up_app_even by exact Hev. reflexivity. }
  rewrite Hroot, Hroot' in Heq. injection Heq as <-.
  exists {| merkles := M |}, {| merkles := M' |}, root. auto.
Qed.

(** *** Collisions *)







(** X9.  [Root] on a non-nil tree panics exactly when the node array is
    empty (for an array whose pointers into the input slice are in
    range); otherwise it returns the digest behind the last slot, or
    [UndefHash] when that slot is nil. *)
Theorem Root_panics_iff mem t :
  Z.of_nat (length (merkles t)) < 2 ^ 63 ->
  (forall i j, merkles t !! i = Some (Some (Elem j)) -> (j < length mem)%nat) ->
  (Root mem (Some t) = Panic <-> merkles t = []) /\
  (forall M, merkles t = M ++ [None] -> Root mem (Some t) = Val UndefHash) /\
  (forall M p h, merkles t = M ++ [Some p] -> slot_val mem (Some p) = Some h ->
                 Root mem (Some t) = Val h).
Proof.
  intros Hmax Hvalid.
  assert (Hlast : forall M s, merkles t = M ++ [s] ->
            Root mem (Some t)
            = match s with Some p => deref mem p | None => Val UndefHash end).
  { intros M s HM. unfold Root. rewrite HM in *.
    rewrite length_app in *. cbn [length] in *.
    rewrite wrap64_small by lia.
    replace (Z.of_nat (length M + 1) - 1) with (Z.of_nat (length M)) by lia.
    rewrite (load_at (M ++ [s]) (length M) s); [reflexivity | ].
    rewrite lookup_app_r by lia. rewrite Nat.sub_diag. reflexivity. }
  split; [ | split].
  - destruct (merkles t) as [ | s0 M0] eqn:HM using rev_ind.
    + split; [reflexivity | ]. intros _. unfold Root. rewrite HM. reflexivity.
    + clear IHM0. rewrite (Hlast M0 s0 eq_refl).
      split; [ | intros Habs; destruct M0; discriminate Habs].
      intros HP. exfalso. destruct s0 as [[j | h] | ]; try discriminate HP.
      assert (Hj : (j < length mem)%nat).
      { apply (Hvalid (length M0) j). rewrite lookup_app_r by lia.
        rewrite Nat.sub_diag. reflexivity. }
      apply lookup_lt_is_Some in Hj. destruct Hj as [h Hh].
      simpl in HP. rewrite Hh in HP. discriminate HP.
  - intros M HM. apply (Hlast M None HM).
  - intros M p h HM Hp. rewrite (Hlast M (Some p) HM).
    apply deref_slot_val. exact Hp.
Qed.

End simplemerkle.


(** ** The code on concrete inputs *)

Abbreviation toy_tree := (NewTreeFromHashes Toy.digest Toy.digest_size Toy.bytes_of
                                       Toy.toy_hash Toy.exact_log2).
Abbreviation toy_tree_of_slices :=
  (NewTreeFromSlices Toy.digest Toy.digest_size Toy.bytes_of Toy.toy_hash
                     Toy.exact_log2).
Abbreviation toy_pair := (HashMerkleBranches Toy.digest Toy.digest_size Toy.bytes_of
                                         Toy.toy_hash).
Abbreviation toy_Root := (Root Toy.digest Toy.undef).
Abbreviation toy_Depth := (Depth Toy.digest Toy.exact_log2).
Abbreviation toy_nodes := (nodes Toy.digest).
Abbreviation toy_merkle_root := (merkle_root Toy.digest Toy.digest_size Toy.bytes_of
                                         Toy.toy_hash).

Lemma toy_bytes_length : forall h, length (Toy.bytes_of h) = Toy.digest_size.
Proof. intros h. reflexivity. Defined.

Lemma toy_log2_exact : forall n, 1 <= n < 2 ^ 48 -> Toy.exact_log2 n = Z.log2 n.
Proof. intros n Hn. reflexivity. Defined.

Example nextPowerOfTwo_values :
  map (nextPowerOfTwo Toy.exact_log2) [1; 2; 3; 4; 5; 8; 9; 1000]
  = [1; 2; 4; 4; 8; 8; 16; 1024].
Proof. reflexivity. Qed.

Example toy_tree_five :
  match toy_tree [x01; x02; x03; x04; x05] with
  | Val (Some t) =>
      length (merkles _ t) = 15%nat /\
      toy_Depth (Some t) = 3 /\
      toy_Root [x01; x02; x03; x04; x05] (Some t)
      = Val (toy_pair (toy_pair (toy_pair x01 x02) (toy_pair x03 x04))
                      (toy_pair (toy_pair x05 x05) (toy_pair x05 x05))) /\
      toy_merkle_root [x01; x02; x03; x04; x05]
      = Some (toy_pair (toy_pair (toy_pair x01 x02) (toy_pair x03 x04))
                       (toy_pair (toy_pair x05 x05) (toy_pair x05 x05)))
  | _ => False
  end.
Proof. vm_compute. repeat split. Qed.

(** The overflow of [1 << exponent]: *)
Example nextPowerOfTwo_wraps :
  nextPowerOfTwo Toy.exact_log2 (2 ^ 62 + 1) = - 2 ^ 63.
Proof. reflexivity. Qed.

(** ** Witnesses and counterexamples *)

Lemma nextPowerOfTwo_correct_witness :
  1 <= 5 <= 2 ^ 62 /\
  (is_pow2 5 \/ Toy.exact_log2 5 = Z.log2 5) /\
  smallest_pow2_geq 5 (nextPowerOfTwo Toy.exact_log2 5).
Proof.
  assert (H1 : 1 <= 5 <= 2 ^ 62) by lia.
  assert (H2 : is_pow2 5 \/ Toy.exact_log2 5 = Z.log2 5) by (right; reflexivity).
  split; [exact H1 | split; [exact H2 | ]].
  apply (nextPowerOfTwo_correct Toy.exact_log2 5 H1 H2).
Defined.

(** C7, counterexample.  At [n = 2^62 + 1] the result is not the smallest
    power of two that is at least [n], whatever the logarithm returns:
    that power is [2^63], which is not an [int]. *)
Lemma nextPowerOfTwo_overflow :
  ~ exists lg, smallest_pow2_geq (2 ^ 62 + 1) (nextPowerOfTwo lg (2 ^ 62 + 1)).
Proof.
  intros (lg & (k & Hk & Hr) & Hge & _).
  rewrite Hr in Hge.
  assert (Hrange : 2 ^ k < 2 ^ 63).
  { rewrite <- Hr. unfold nextPowerOfTwo.
    destruct (Z.eqb_spec (Z.land (2 ^ 62 + 1) (wrap64 (2 ^ 62 + 1 - 1))) 0)
      as [Hland | _].
    - vm_compute in Hland. discriminate Hland.
    - unfold shl_int.
      apply (wrap64_range (Z.shiftl 1 (wrapU64 (lg (2 ^ 62 + 1) + 1)))). }
  destruct (Z.le_gt_cases k 62) as [Hle | Hgt].
  - pose proof (Z.pow_le_mono_r 2 k 62 ltac:(lia) Hle). lia.
  - pose proof (Z.pow_le_mono_r 2 63 k ltac:(lia) ltac:(lia)). lia.
Qed.

Lemma HashMerkleBranches_concat_witness :
  (forall h, length (Toy.bytes_of h) = Toy.digest_size) /\
  toy_pair x01 x02 = Toy.toy_hash [x01; x02].
Proof.
  split; [exact toy_bytes_length | ].
  apply (HashMerkleBranches_concat Toy.digest Toy.digest_size Toy.bytes_of
           toy_bytes_length Toy.toy_hash x01 x02).
Defined.

Lemma NewTreeFromHashes_spec_witness :
  (forall n, 1 <= n < 2 ^ 48 -> Toy.exact_log2 n = Z.log2 n) /\
  [x01; x02; x03] <> [] /\
  Z.of_nat (length [x01; x02; x03]) <= 2 ^ 47 /\
  exists t root,
    toy_tree [x01; x02; x03] = Val (Some t) /\
    length (toy_nodes [x01; x02; x03] t) = 7%nat /\
    toy_nodes [x01; x02; x03] t !! 6%nat = Some (Some root) /\
    toy_merkle_root [x01; x02; x03] = Some root.
Proof.
  assert (H1 : [x01; x02; x03] <> []) by discriminate.
  assert (H2 : Z.of_nat (length [x01; x02; x03]) <= 2 ^ 47) by (simpl; lia).
  split; [exact toy_log2_exact | split; [exact H1 | split; [exact H2 | ]]].
  destruct (NewTreeFromHashes_spec Toy.digest Toy.digest_size Toy.bytes_of
              Toy.toy_hash Toy.exact_log2 toy_log2_exact [x01; x02; x03] H1 H2)
    as (_ & t & root & Hrun & Hlen & _ & _ & _ & Hlast & Hroot).
  exists t, root.
  split; [exact Hrun | split; [exact Hlen | split; [exact Hlast | exact Hroot]]].
Defined.

Lemma Root_present_witness :
  (forall n, 1 <= n < 2 ^ 48 -> Toy.exact_log2 n = Z.log2 n) /\
  [x01; x02; x03] <> [] /\
  Z.of_nat (length [x01; x02; x03]) <= 2 ^ 47 /\
  exists t root,
    toy_tree [x01; x02; x03] = Val (Some t) /\
    toy_Root [x01; x02; x03] (Some t) = Val root /\
    toy_merkle_root [x01; x02; x03] = Some root.
Proof.
  assert (H1 : [x01; x02; x03] <> []) by discriminate.
  assert (H2 : Z.of_nat (length [x01; x02; x03]) <= 2 ^ 47) by (simpl; lia).
  split; [exact toy_log2_exact | split; [exact H1 | split; [exact H2 | ]]].
  destruct (Root_present Toy.digest Toy.digest_size Toy.bytes_of Toy.undef
              Toy.toy_hash Toy.exact_log2 toy_log2_exact [x01; x02; x03] H1 H2)
    as (t & p & root & Hrun & _ & _ & HR & Hroot).
  exists t, root. split; [exact Hrun | split; [exact HR | exact Hroot]].
Defined.

Lemma presence_invariant_witness :
  (forall n, 1 <= n < 2 ^ 48 -> Toy.exact_log2 n = Z.log2 n) /\
  [x01; x02; x03] <> [] /\
  Z.of_nat (length [x01; x02; x03]) <= 2 ^ 47 /\
  exists t,
    toy_tree [x01; x02; x03] = Val (Some t) /\
    toy_nodes [x01; x02; x03] t !! 3%nat = Some None /\
    exists h, toy_nodes [x01; x02; x03] t !! 6%nat = Some (Some h).
Proof.
  assert (H1 : [x01; x02; x03] <> []) by discriminate.
  assert (H2 : Z.of_nat (length [x01; x02; x03]) <= 2 ^ 47) by (simpl; lia).
  split; [exact toy_log2_exact | split; [exact H1 | split; [exact H2 | ]]].
  destruct (presence_invariant Toy.digest Toy.digest_size Toy.bytes_of
              Toy.toy_hash Toy.exact_log2 toy_log2_exact [x01; x02; x03] H1 H2)
    as (t & Hrun & _ & Hpad & _ & _ & Hspine).
  exists t. split; [exact Hrun | split].
  - apply (Hpad 3%nat). vm_compute. lia.
  - apply (Hspine 2%nat). vm_compute. lia.
Defined.

Lemma Depth_spec_witness :
  (forall n, 1 <= n < 2 ^ 48 -> Toy.exact_log2 n = Z.log2 n) /\
  Z.of_nat (length [x01; x02; x03; x04; x05]) <= 2 ^ 47 /\
  exists tree,
    toy_tree [x01; x02; x03; x04; x05] = Val tree /\
    toy_Depth tree = 3.
Proof.
  assert (H2 : Z.of_nat (length [x01; x02; x03; x04; x05]) <= 2 ^ 47)
    by (simpl; lia).
  split; [exact toy_log2_exact | split; [exact H2 | ]].
  destruct (Depth_spec Toy.digest Toy.digest_size Toy.bytes_of Toy.toy_hash
              Toy.exact_log2 toy_log2_exact [x01; x02; x03; x04; x05] H2)
    as ((tree & Hrun & HD & _) & _).
  exists tree. split; [exact Hrun | exact HD].
Defined.

Lemma single_leaf_witness :
  (forall n, 1 <= n < 2 ^ 48 -> Toy.exact_log2 n = Z.log2 n) /\
  exists t,
    toy_tree [x2a] = Val (Some t) /\
    toy_Root [x2a] (Some t) = Val x2a /\
    toy_Depth (Some t) = 0.
Proof.
  split; [exact toy_log2_exact | ].
  destruct (single_leaf Toy.digest Toy.digest_size Toy.bytes_of Toy.undef
              Toy.toy_hash Toy.exact_log2 toy_log2_exact x2a)
    as (t & Hrun & _ & HR & HD).
  exists t. split; [exact Hrun | split; [exact HR | exact HD]].
Defined.

Lemma three_leaves_witness :
  (forall h, length (Toy.bytes_of h) = Toy.digest_size) /\
  (forall n, 1 <= n < 2 ^ 48 -> Toy.exact_log2 n = Z.log2 n) /\
  exists t,
    toy_tree [x01; x02; x03] = Val (Some t) /\
    toy_Root [x01; x02; x03] (Some t)
    = Val (Toy.toy_hash [Toy.toy_hash [x01; x02]; Toy.toy_hash [x03; x03]]).
Proof.
  split; [exact toy_bytes_length | split; [exact toy_log2_exact | ]].
  destruct (three_leaves Toy.digest Toy.digest_size Toy.bytes_of Toy.undef
              toy_bytes_length Toy.toy_hash Toy.exact_log2 toy_log2_exact
              x01 x02 x03)
    as (t & Hrun & _ & HR).
  exists t. split; [exact Hrun | exact HR].
Defined.

Lemma empty_input_and_totality_witness :
  (forall n, 1 <= n < 2 ^ 48 -> Toy.exact_log2 n = Z.log2 n) /\
  toy_tree [] = Val None /\
  toy_tree_of_slices [] = Val None /\
  toy_Root [] None = Val Toy.undef /\
  toy_Depth None = 0.
Proof.
  split; [exact toy_log2_exact | ].
  destruct (empty_input_and_totality Toy.digest Toy.digest_size Toy.bytes_of
              Toy.undef Toy.toy_hash Toy.exact_log2 toy_log2_exact)
    as (H1 & H2 & H3 & H4 & _).
  split; [exact H1 | split; [exact H2 | split; [exact (H3 []) | exact H4]]].
Defined.

(** No constructor returns a tree with an empty node array; on such a
    value, the zero value [Tree{}], the index [len - 1] of [Root] is
    [-1] (see [Root_panics_iff]). *)
Example Root_empty_array :
  toy_Root [] (Some {| merkles := [] |}) = Panic.
Proof. reflexivity. Qed.

Lemma ownership_witness :
  (forall n, 1 <= n < 2 ^ 48 -> Toy.exact_log2 n = Z.log2 n) /\
  [x01; x02; x03] <> [] /\
  Z.of_nat (length [x01; x02; x03]) <= 2 ^ 47 /\
  exists t,
    toy_tree [x01; x02; x03] = Val (Some t) /\
    toy_nodes [xff; x02; x03] t !! 0%nat = Some (Some xff) /\
    toy_Root [xff; x02; x03] (Some t) = toy_Root [x01; x02; x03] (Some t).
Proof.
  assert (H1 : [x01; x02; x03] <> []) by discriminate.
  assert (H2 : Z.of_nat (length [x01; x02; x03]) <= 2 ^ 47) by (simpl; lia).
  split; [exact toy_log2_exact | split; [exact H1 | split; [exact H2 | ]]].
  destruct (ownership Toy.digest Toy.digest_size Toy.bytes_of Toy.undef
              Toy.toy_hash Toy.exact_log2 toy_log2_exact [x01; x02; x03] H1 H2)
    as (t & Hrun & _ & _ & Hmut).
  destruct (Hmut [xff; x02; x03] eq_refl) as (Hleaf & _ & HR & _).
  exists t. split; [exact Hrun | split].
  - apply (Hleaf 0%nat). simpl. lia.
  - apply HR. simpl. lia.
Defined.

(** C9, counterexample.  The tree built from the one-element slice
    [[x01]] keeps the address of that element: once the caller
    overwrites the element with [x02], [Root] returns [x02]. *)
Lemma Root_follows_caller_slice :
  ~ (forall hashes mem' t,
       toy_tree hashes = Val (Some t) -> length mem' = length hashes ->
       toy_Root mem' (Some t) = toy_Root hashes (Some t)).
Proof.
  intros Hclaim.
  specialize (Hclaim [x01] [x02] {| merkles := [Some (Elem _ 0)] |}
                     eq_refl eq_refl).
  vm_compute in Hclaim. discriminate Hclaim.
Qed.

(** ** Witnesses of the further properties *)


Lemma nextPowerOfTwo_fixed_witness :
  is_int 0 /\ nextPowerOfTwo Toy.exact_log2 0 = 0.
Proof.
  assert (H0 : is_int 0) by (unfold is_int, min_int, max_int; lia).
  split; [exact H0 | ].
  apply (nextPowerOfTwo_fixed Toy.exact_log2 0 H0). left. reflexivity.
Defined.

Lemma nextPowerOfTwo_bounds_witness :
  1 <= 5 <= 2 ^ 62 /\
  (is_pow2 5 \/ Toy.exact_log2 5 = Z.log2 5) /\
  5 <= nextPowerOfTwo Toy.exact_log2 5 < 2 * 5.
Proof.
  assert (H1 : 1 <= 5 <= 2 ^ 62) by lia.
  assert (H2 : is_pow2 5 \/ Toy.exact_log2 5 = Z.log2 5) by (right; reflexivity).
  split; [exact H1 | split; [exact H2 | ]].
  apply (nextPowerOfTwo_bounds Toy.exact_log2 5 H1 H2).
Defined.

Lemma node_array_size_witness :
  (forall n, 1 <= n < 2 ^ 48 -> Toy.exact_log2 n = Z.log2 n) /\
  [x01; x02; x03] <> [] /\
  Z.of_nat (length [x01; x02; x03]) <= 2 ^ 47 /\
  exists t,
    toy_tree [x01; x02; x03] = Val (Some t) /\
    Z.of_nat (length (merkles _ t)) = 2 * 2 ^ toy_Depth (Some t) - 1.
Proof.
  assert (H1 : [x01; x02; x03] <> []) by discriminate.
  assert (H2 : Z.of_nat (length [x01; x02; x03]) <= 2 ^ 47) by (simpl; lia).
  split; [exact toy_log2_exact | split; [exact H1 | split; [exact H2 | ]]].
  destruct (node_array_size Toy.digest Toy.digest_size Toy.bytes_of
              Toy.toy_hash Toy.exact_log2 toy_log2_exact [x01; x02; x03] H1 H2)
    as (t & Hrun & Hsize & _).
  exists t. split; [exact Hrun | exact Hsize].
Defined.

Lemma node_array_levels_witness :
  (forall n, 1 <= n < 2 ^ 48 -> Toy.exact_log2 n = Z.log2 n) /\
  [x01; x02; x03] <> [] /\
  Z.of_nat (length [x01; x02; x03]) <= 2 ^ 47 /\
  exists t,
    toy_tree [x01; x02; x03] = Val (Some t) /\
    toy_nodes [x01; x02; x03] t !! 5%nat
    = Some (Some (toy_pair x03 x03)).
Proof.
  assert (H1 : [x01; x02; x03] <> []) by discriminate.
  assert (H2 : Z.of_nat (length [x01; x02; x03]) <= 2 ^ 47) by (simpl; lia).
  split; [exact toy_log2_exact | split; [exact H1 | split; [exact H2 | ]]].
  destruct (node_array_levels Toy.digest Toy.digest_size Toy.bytes_of
              Toy.toy_hash Toy.exact_log2 toy_log2_exact [x01; x02; x03] H1 H2)
    as (t & Hrun & Hlev).
  exists t. split; [exact Hrun | ].
  apply (Hlev 1%nat 1%nat); vm_compute; lia.
Defined.

Lemma NewTreeFromSlices_root_witness :
  (forall n, 1 <= n < 2 ^ 48 -> Toy.exact_log2 n = Z.log2 n) /\
  [[x01]; [x02; x03]; []] <> [] /\
  Z.of_nat (length [[x01]; [x02; x03]; ([] : list byte)]) <= 2 ^ 47 /\
  exists t root,
    toy_tree_of_slices [[x01]; [x02; x03]; []] = Val (Some t) /\
    toy_Root (hash_slices _ Toy.toy_hash [[x01]; [x02; x03]; []]) (Some t)
    = Val root /\
    toy_Depth (Some t) = 2.
Proof.
  assert (H1 : [[x01]; [x02; x03]; ([] : list byte)] <> []) by discriminate.
  assert (H2 : Z.of_nat (length [[x01]; [x02; x03]; ([] : list byte)]) <= 2 ^ 47)
    by (simpl; lia).
  split; [exact toy_log2_exact | split; [exact H1 | split; [exact H2 | ]]].
  destruct (NewTreeFromSlices_root Toy.digest Toy.digest_size Toy.bytes_of
              Toy.undef Toy.toy_hash Toy.exact_log2 toy_log2_exact
              [[x01]; [x02; x03]; []] H1 H2)
    as (t & root & Hrun & HR & _ & HD).
  exists t, root. split; [exact Hrun | split; [exact HR | exact HD]].
Defined.

Lemma Root_repeated_last_witness :
  (forall n, 1 <= n < 2 ^ 48 -> Toy.exact_log2 n = Z.log2 n) /\
  (2 <= length [x01; x02])%nat /\
  (length [x01; x02] mod 2 = 0)%nat /\
  Z.of_nat (length [x01; x02]) + 2 <= 2 ^ 47 /\
  exists t t' root,
    toy_tree [x01; x02; x03] = Val (Some t) /\
    toy_tree [x01; x02; x03; x03] = Val (Some t') /\
    toy_Root [x01; x02; x03] (Some t) = Val root /\
    toy_Root [x01; x02; x03; x03] (Some t') = Val root.
Proof.
  assert (H1 : (2 <= length [x01; x02])%nat) by (simpl; lia).
  assert (H2 : (length [x01; x02] mod 2 = 0)%nat) by reflexivity.
  assert (H3 : Z.of_nat (length [x01; x02]) + 2 <= 2 ^ 47) by (simpl; lia).
  split; [exact toy_log2_exact | split; [exact H1 | split; [exact H2 | split;
    [exact H3 | ]]]].
  apply (Root_repeated_last Toy.digest Toy.digest_size Toy.bytes_of Toy.undef
           Toy.toy_hash Toy.exact_log2 toy_log2_exact [x01; x02] x03 H1 H2 H3).
Defined.



Lemma Root_panics_iff_witness :
  Z.of_nat (length (merkles _ {| merkles := [Some (Elem Toy.digest 0)] |}))
  < 2 ^ 63 /\
  (forall i j, [Some (Elem Toy.digest 0)] !! i = Some (Some (Elem _ j)) ->
               (j < length [x01])%nat) /\
  (toy_Root [x01] (Some {| merkles := [Some (Elem _ 0)] |}) = Panic <->
   [Some (Elem Toy.digest 0)] = []).
Proof.
  assert (H1 : Z.of_nat (length (merkles _ {| merkles := [Some (Elem Toy.digest 0)] |}))
               < 2 ^ 63) by (simpl; lia).
  assert (H2 : forall i j,
             [Some (Elem Toy.digest 0)] !! i = Some (Some (Elem _ j)) ->
             (j < length [x01])%nat).
  { intros [ | i] j Hj; simpl in Hj; [ | discriminate Hj].
    injection Hj as <-. simpl. lia. }
  split; [exact H1 | split; [exact H2 | ]].
  apply (Root_panics_iff Toy.digest Toy.undef [x01]
           {| merkles := [Some (Elem _ 0)] |} H1 H2).
Defined.
